(** * qmk2srgb: grid normalisation and LED naming

    A shallow embedding of the per-file transform of [qmk2srgb.py] (the body
    of the [try] block, lines 367-409): the two axis lists [xs] and [ys], the
    loop over [rgb_matrix.layout] with its three pieces of mutable state
    ([unnamed], [matxs], [matys]) and the label clean-up.

    Python values are modelled as follows.
    - JSON integers are [Z]; a [matrix] attribute is a pair (row, column),
      i.e. ([matrix[0]], [matrix[1]]).
    - A Python [str] is the list of its code points ([N]).
    - [dict]s keyed by integers ([matxs], [matys]) are [gmap Z nat].
    - An exception is a value of [exn]; code that may raise returns [result].
    - The built-in [set] is an interface ([PySet]): the language fixes which
      elements [list(set(l))] has, not their order.  Two implementations are
      given: insertion order and CPython's hash table. *)

From Stdlib Require Import ZArith NArith Ascii String.
From stdpp Require Import base tactics option list numbers gmap sorting pretty.

Local Open Scope Z_scope.

(** ** Exceptions *)

Inductive exn : Type :=
  | ValueError_index   (* list.index(v): v is not in the list *)
  | TypeError_name     (* unicodedata.name(s): s is not one character *)
  | ValueError_name.   (* unicodedata.name(c): c has no name *)

Inductive result (A : Type) : Type :=
  | Ok (a : A)
  | Raise (e : exn).
Arguments Ok {A} a.
Arguments Raise {A} e.

Definition bind {A B} (r : result A) (k : A → result B) : result B :=
  match r with
  | Ok a => k a
  | Raise e => Raise e
  end.

Notation "'let*' x := r 'in' k" := (bind r (λ x, k))
  (at level 10, x pattern, r at level 100, k at level 200).

(** A [for] loop whose body may raise. *)
Fixpoint for_each {St A} (body : St → A → result St) (s : St) (l : list A)
  : result St :=
  match l with
  | [] => Ok s
  | a :: l' => let* s' := body s a in for_each body s' l'
  end.

(** ** Strings *)

Definition str : Type := list N.

Definition lit (s : string) : str := N_of_ascii <$> list_ascii_of_string s.

Definition backslash : N := 92.
Definition dquote : N := 34.

(** [s.isascii()] *)
Definition isascii (s : str) : bool := forallb (λ c, c <? 128)%N s.

(** [c in s], for a one-character [c] *)
Definition contains (c : N) (s : str) : bool := existsb (N.eqb c) s.

(** [s.replace(old, new)], for a one-character [old] *)
Definition replace (old : N) (new : str) (s : str) : str :=
  s ≫= (λ c, if (c =? old)%N then new else [c]).

(** [str(n)] for a non-negative integer, as in [f"Light {unnamed}"] *)
Definition str_of_nat (n : nat) : str := lit (pretty n).

Definition light (n : nat) : str := lit "Light " ++ str_of_nat n.

(** ** Lists and dicts *)

(** [l.index(v)] *)
Fixpoint index (v : Z) (l : list Z) : result nat :=
  match l with
  | [] => Raise ValueError_index
  | a :: l' =>
      if decide (a = v) then Ok 0%nat
      else let* i := index v l' in Ok (S i)
  end.

(** [d.setdefault(k, v)]: the value returned and the dict afterwards *)
Definition setdefault (d : gmap Z nat) (k : Z) (v : nat) : nat * gmap Z nat :=
  match d !! k with
  | Some w => (w, d)
  | None => (v, <[k:=v]> d)
  end.

(** [sorted(l)] on integers *)
Definition sorted (l : list Z) : list Z := merge_sort Z.le l.

(** The built-in [set]: [set_iter l] is [list(set(l))]. *)
Class PySet : Type := {
  set_iter : list Z → list Z;
  set_iter_NoDup : ∀ l, NoDup (set_iter l);
  set_iter_elem : ∀ l v, v ∈ set_iter l ↔ v ∈ l
}.

(** ** The input document and the generated tables *)

Record Led : Type := {
  led_x : Z;
  led_y : Z;
  led_matrix : option (Z * Z)
}.

(** An entry of the ["layout"] list. Every entry is taken to carry a
    ["matrix"] pair: on an entry without one the comparison of line 397
    raises KeyError, which is not modelled. *)
Record KeyMeta : Type := {
  key_matrix : Z * Z;
  key_label : option str
}.

(** [layouts] is [Some meta] when the document has a ["layouts"] key, [meta]
    being the ["layout"] list of its first value. A ["layouts"] object with
    no value, on which line 397 raises IndexError, is not modelled. *)
Record Doc : Type := {
  rgb_matrix_layout : list Led;
  layouts : option (list KeyMeta)
}.

Record Tables : Type := {
  width : nat;
  height : nat;
  ledIndices : list nat;
  ledNames : list str;
  ledPositions : list (nat * nat)
}.

Global Instance Led_eq_dec : EqDecision Led.
Proof. solve_decision. Defined.
Global Instance KeyMeta_eq_dec : EqDecision KeyMeta.
Proof. solve_decision. Defined.

(** ** The transform *)

(** [x["x"] if not args.matrix_sizing or "matrix" not in x else x["matrix"][1]] *)
Definition sel_x (matrix_sizing : bool) (led : Led) : Z :=
  match led_matrix led with
  | Some m => if negb matrix_sizing then led_x led else m.2
  | None => led_x led
  end.

(** [x["y"] if not args.matrix_sizing or "matrix" not in x else x["matrix"][0]] *)
Definition sel_y (matrix_sizing : bool) (led : Led) : Z :=
  match led_matrix led with
  | Some m => if negb matrix_sizing then led_y led else m.1
  | None => led_y led
  end.

(** [next((x for x in meta if x["matrix"] == m), None)] *)
Definition key (meta : list KeyMeta) (m : Z * Z) : option KeyMeta :=
  find (λ k, bool_decide (key_matrix k = m)) meta.

(** The state of the loop over the LEDs. *)
Record Loop : Type := {
  unnamed : nat;
  matxs : gmap Z nat;
  matys : gmap Z nat;
  vkeynames : list str;
  vkeypositions : list (nat * nat)
}.

Definition loop_init : Loop :=
  {| unnamed := 0; matxs := ∅; matys := ∅; vkeynames := []; vkeypositions := [] |}.

Section transform.
Context `{PySet}.
(** The name table of the Unicode Character Database. *)
Variable ucd : N → option str.

(** [unicodedata.name(s)] *)
Definition unicodedata_name (s : str) : result str :=
  match s with
  | [c] => match ucd c with
           | Some n => Ok n
           | None => Raise ValueError_name
           end
  | _ => Raise TypeError_name
  end.

(** Lines 401-406: the clean-up of a label taken from the metadata. *)
Definition sanitize (lbl : str) : result str :=
  let* lbl := (if negb (isascii lbl) then unicodedata_name lbl else Ok lbl) in
  let lbl := if contains backslash lbl
             then replace backslash [backslash; backslash] lbl else lbl in
  let lbl := if contains dquote lbl
             then replace dquote [backslash; dquote] lbl else lbl in
  Ok lbl.

(** Lines 396-406: the label found for a LED with matrix pair [m]; [None]
    is Python's [None]. *)
Definition lookup_label (meta : list KeyMeta) (m : Z * Z) : result (option str) :=
  match key meta m with
  | Some k =>
      match key_label k with
      | Some l => let* l' := sanitize l in Ok (Some l')
      | None => Ok None
      end
  | None => Ok None
  end.

Definition xs (matrix_sizing : bool) (doc : Doc) : list Z :=
  set_iter (sorted (sel_x matrix_sizing <$> rgb_matrix_layout doc)).

Definition ys (matrix_sizing : bool) (doc : Doc) : list Z :=
  set_iter (sorted (sel_y matrix_sizing <$> rgb_matrix_layout doc)).

(** Lines 389-409: one iteration of the loop; [xs] and [ys] are the two
    axis lists computed before it. *)
Definition led_step (matrix_sizing : bool) (doc : Doc) (xs ys : list Z)
    (st : Loop) (led : Led) : result Loop :=
  let* ledx := index (sel_x matrix_sizing led) xs in
  let* ledy := index (sel_y matrix_sizing led) ys in
  let* (ledx, ledy, mx, my, lbl) :=
    match led_matrix led, layouts doc with
    | Some m, Some meta =>
        let '(ledx, mx) :=
          if matrix_sizing then setdefault (matxs st) m.1 ledx
          else (ledx, matxs st) in
        let '(ledy, my) :=
          if matrix_sizing then setdefault (matys st) m.2 ledy
          else (ledy, matys st) in
        let* lbl := lookup_label meta m in
        Ok (ledx, ledy, mx, my, lbl)
    | _, _ => Ok (ledx, ledy, matxs st, matys st, None)
    end in
  let '(n, lbl) :=
    match lbl with
    | None => (S (unnamed st), light (S (unnamed st)))
    | Some l => (unnamed st, l)
    end in
  Ok {| unnamed := n; matxs := mx; matys := my;
        vkeynames := vkeynames st ++ [lbl];
        vkeypositions := vkeypositions st ++ [(ledx, ledy)] |}.

Definition run_loop (matrix_sizing : bool) (doc : Doc) : result Loop :=
  for_each (led_step matrix_sizing doc (xs matrix_sizing doc) (ys matrix_sizing doc))
           loop_init (rgb_matrix_layout doc).

(** Lines 367-409: the value tables handed to the template. *)
Definition transform (matrix_sizing : bool) (doc : Doc) : result Tables :=
  let* st := run_loop matrix_sizing doc in
  Ok {| width := length (xs matrix_sizing doc);
        height := length (ys matrix_sizing doc);
        ledIndices := seq 0 (length (rgb_matrix_layout doc));
        ledNames := vkeynames st;
        ledPositions := vkeypositions st |}.
End transform.

(** ** Two implementations of the built-in set *)

(** Insertion order (PyPy): a new element goes last. *)
Definition ordered_add (acc : list Z) (v : Z) : list Z :=
  if decide (v ∈ acc) then acc else acc ++ [v].

Definition ordered_iter (l : list Z) : list Z := foldl ordered_add [] l.

(** CPython's [Objects/setobject.c], for a set built from a list of integers
    and never deleted from: an open-addressing table whose size is a power
    of two, probed from [hash & mask] through a window of [LINEAR_PROBES]
    slots and then along [i * 5 + 1 + perturb]. [list(s)] walks the table
    from slot 0 upwards. *)
Module CPython.
Definition PySet_MINSIZE : Z := 8.
Definition LINEAR_PROBES : nat := 9.
Definition PERTURB_SHIFT : Z := 5.

(** [hash(v)] for an [int]: the sign times the magnitude reduced modulo
    [2^61 - 1], with -1 replaced by -2. *)
Definition long_hash (v : Z) : Z :=
  let h := Z.sgn v * (Z.abs v mod (2 ^ 61 - 1)) in
  if decide (h = -1) then -2 else h.

Definition table : Type := list (option Z).

Definition keys (t : table) : list Z := omap id t.

Definition unused (t : table) (i : Z) : bool :=
  bool_decide (t !! Z.to_nat i = Some None).

(** The slots [i], [i+1], ..., [i+probes]. *)
Fixpoint scan (t : table) (i : Z) (probes : nat) : option Z :=
  if unused t i then Some i
  else match probes with
       | O => None
       | S p => scan t (i + 1) p
       end.

(** The probe loop of [set_add_entry] and [set_insert_clean], up to the
    first unused slot. *)
Fixpoint probe (fuel : nat) (t : table) (mask i perturb : Z) : option Z :=
  match fuel with
  | O => None
  | S fuel' =>
      let probes :=
        if decide (i + Z.of_nat LINEAR_PROBES ≤ mask) then LINEAR_PROBES else O in
      match scan t i probes with
      | Some j => Some j
      | None =>
          let perturb := perturb ≫ PERTURB_SHIFT in
          probe fuel' t mask (Z.land (i * 5 + 1 + perturb) mask) perturb
      end
  end.

(** Store [v] in the first unused slot of its probe sequence. The sequence
    reaches every slot within [13 + size] rounds ([perturb] is 0 after 13
    shifts and [i * 5 + 1] has full period modulo a power of two) and the
    table is never full, so the last branch is not taken ([place_roomy]
    below); it is there because the loop is given fuel. *)
Definition place (t : table) (v : Z) : table :=
  let mask := Z.of_nat (length t) - 1 in
  let hash := long_hash v in
  match probe (14 + length t) t mask (Z.land hash mask) (hash mod 2 ^ 64) with
  | Some j => <[Z.to_nat j := Some v]> t
  | None => t ++ [Some v]
  end.

(** [newsize = PySet_MINSIZE; while (newsize <= minused) newsize <<= 1;] *)
Fixpoint newsize_loop (fuel : nat) (newsize minused : Z) : Z :=
  match fuel with
  | O => newsize
  | S fuel' =>
      if decide (newsize ≤ minused) then newsize_loop fuel' (newsize ≪ 1) minused
      else newsize
  end.

(** [set_table_resize]: re-insert the keys, in table order, into a clean
    table. *)
Definition set_table_resize (t : table) (minused : Z) : table :=
  let newsize := newsize_loop (Z.to_nat minused) PySet_MINSIZE minused in
  foldl place (replicate (Z.to_nat newsize) None) (keys t).

(** [set_add_key]: nothing changes when the key is present; otherwise it
    is stored and the table grows once [fill * 5 >= mask * 3]. *)
Definition set_add_key (t : table) (v : Z) : table :=
  if decide (v ∈ keys t) then t
  else
    let mask := Z.of_nat (length t) - 1 in
    let t' := place t v in
    let used := Z.of_nat (length (keys t')) in
    if decide (used * 5 < mask * 3) then t'
    else set_table_resize t' (if decide (50000 < used) then used * 2 else used * 4).

(** [list(set(l))] *)
Definition iter (l : list Z) : list Z :=
  keys (foldl set_add_key (replicate (Z.to_nat PySet_MINSIZE) None) l).
End CPython.

(** * Properties *)

(** ** The two set implementations meet the interface *)

Section set_fold.
Context {T : Type} (add : T → Z → T) (content : T → list Z).
Hypothesis add_elem : ∀ t v w, w ∈ content (add t v) ↔ w = v ∨ w ∈ content t.
Hypothesis add_NoDup : ∀ t v, NoDup (content t) → NoDup (content (add t v)).

Lemma foldl_add_elem l t w :
  w ∈ content (foldl add t l) ↔ w ∈ l ∨ w ∈ content t.
Proof.
  revert t. induction l as [|v l IH]; intros t; simpl.
  - rewrite elem_of_nil. tauto.
  - rewrite IH, add_elem, elem_of_cons. tauto.
Qed.

Lemma foldl_add_NoDup l t : NoDup (content t) → NoDup (content (foldl add t l)).
Proof. revert t. induction l as [|v l IH]; intros t Ht; simpl; auto. Qed.
End set_fold.

Lemma ordered_add_elem acc v w : w ∈ ordered_add acc v ↔ w = v ∨ w ∈ acc.
Proof.
  unfold ordered_add. case_decide as Hv.
  - split; [tauto | intros [-> | ?]; done].
  - rewrite elem_of_app, list_elem_of_singleton. tauto.
Qed.

Lemma ordered_add_NoDup acc v : NoDup acc → NoDup (ordered_add acc v).
Proof.
  intros Hacc. unfold ordered_add. case_decide as Hv; [done|].
  apply NoDup_app. split_and!; [done | | apply NoDup_singleton].
  intros w Hw ->%list_elem_of_singleton. done.
Qed.

#[export] Program Instance ordered_set : PySet := {| set_iter := ordered_iter |}.
Next Obligation.
  intros l. apply (foldl_add_NoDup ordered_add id ordered_add_NoDup). constructor.
Qed.
Next Obligation.
  intros l v.
  pose proof (foldl_add_elem ordered_add id ordered_add_elem l [] v) as Hl.
  unfold ordered_iter. simpl in Hl. rewrite Hl, elem_of_nil. tauto.
Qed.

Module CPythonFacts.
Import CPython.

Lemma scan_unused t i probes j : scan t i probes = Some j → unused t j = true.
Proof.
  revert i. induction probes as [|p IH]; intros i; simpl;
    destruct (unused t i) eqn:Hu; try congruence; eauto.
Qed.

Lemma probe_unused fuel t mask i perturb j :
  probe fuel t mask i perturb = Some j → unused t j = true.
Proof.
  revert i perturb. induction fuel as [|f IH]; intros i perturb; simpl; [done|].
  destruct (scan _ _ _) eqn:Hs; [intros [= ->]; eauto using scan_unused | eauto].
Qed.

Lemma keys_app t1 t2 : keys (t1 ++ t2) = keys t1 ++ keys t2.
Proof. apply omap_app. Qed.

Lemma keys_store (t : table) n v :
  t !! n = Some None → keys (<[n := Some v]> t) ≡ₚ v :: keys t.
Proof.
  revert n. induction t as [|e t IH]; intros [|n]; simpl; try done.
  - intros [= ->]. done.
  - intros Hn. unfold keys in *. simpl. destruct e as [k|]; simpl.
    + rewrite IH by done. apply Permutation_swap.
    + by apply IH.
Qed.

Lemma keys_place t v : keys (place t v) ≡ₚ v :: keys t.
Proof.
  unfold place. destruct (probe _ _ _ _ _) as [j|] eqn:Hp.
  - apply keys_store. apply probe_unused in Hp.
    unfold unused in Hp. by apply bool_decide_eq_true in Hp.
  - rewrite keys_app. simpl. by rewrite Permutation_app_comm.
Qed.

Lemma keys_foldl_place l t : keys (foldl place t l) ≡ₚ l ++ keys t.
Proof.
  revert t. induction l as [|v l IH]; intros t; simpl; [done|].
  rewrite IH, keys_place. by rewrite Permutation_middle.
Qed.

Lemma keys_clean n : keys (replicate n None) = [].
Proof. induction n; simpl; auto. Qed.

Lemma keys_resize t minused : keys (set_table_resize t minused) ≡ₚ keys t.
Proof.
  unfold set_table_resize. rewrite keys_foldl_place, keys_clean. by rewrite app_nil_r.
Qed.

Lemma keys_add_new t v : v ∉ keys t → keys (set_add_key t v) ≡ₚ v :: keys t.
Proof.
  intros Hv. unfold set_add_key. rewrite decide_False by done.
  case_decide; [|rewrite keys_resize]; apply keys_place.
Qed.

Lemma keys_add_elem t v w : w ∈ keys (set_add_key t v) ↔ w = v ∨ w ∈ keys t.
Proof.
  destruct (decide (v ∈ keys t)) as [Hv|Hv].
  - unfold set_add_key. rewrite decide_True by done.
    split; [tauto | intros [-> | ?]; done].
  - rewrite (keys_add_new _ _ Hv), elem_of_cons. tauto.
Qed.

Lemma keys_add_NoDup t v : NoDup (keys t) → NoDup (keys (set_add_key t v)).
Proof.
  intros Ht. destruct (decide (v ∈ keys t)) as [Hv|Hv].
  - unfold set_add_key. by rewrite decide_True by done.
  - rewrite (keys_add_new _ _ Hv). by constructor.
Qed.

(** *** The probe loop ends

    The rest of this module shows that the last branch of [place] is dead:
    the probe loop finds an unused slot in every table a set goes through. *)

(** The recurrence [i * 5 + 1] of the probe sequence, iterated [n] times. *)
Fixpoint lcg (n : nat) (i : Z) : Z :=
  match n with
  | O => i
  | S n' => lcg n' i * 5 + 1
  end.

Lemma lcg_add a b i : lcg (a + b) i = lcg a (lcg b i).
Proof. induction a as [|a IH]; simpl; [done|]. by rewrite IH. Qed.

Lemma lcg_closed n i : 4 * lcg n i + 1 = 5 ^ Z.of_nat n * (4 * i + 1).
Proof.
  induction n as [|n IH]; [simpl; lia|].
  rewrite Nat2Z.inj_succ, Z.pow_succ_r by lia. simpl lcg. lia.
Qed.

Lemma pow5_pow2 (k : nat) :
  ∃ q, 5 ^ Z.of_nat (2 ^ k) = 1 + 4 * 2 ^ Z.of_nat k * (2 * q + 1).
Proof.
  induction k as [|k [q IH]].
  - exists 0. simpl. lia.
  - replace (2 ^ S k)%nat with (2 ^ k + 2 ^ k)%nat by (simpl; lia).
    rewrite Nat2Z.inj_add, Z.pow_add_r, IH by lia.
    rewrite Nat2Z.inj_succ, Z.pow_succ_r by lia.
    exists (q + 2 ^ Z.of_nat k * (2 * q + 1) * (2 * q + 1)). ring.
Qed.

(** After [2^k] steps the value has moved by [2^k] modulo [2^(k+1)]. *)
Lemma lcg_pow2 (k : nat) i :
  (lcg (2 ^ k) i - (i + 2 ^ Z.of_nat k)) mod 2 ^ Z.of_nat (S k) = 0.
Proof.
  destruct (pow5_pow2 k) as [q Hq].
  pose proof (lcg_closed (2 ^ k) i) as Hc. rewrite Hq in Hc.
  assert (lcg (2 ^ k) i = i + 2 ^ Z.of_nat k * (2 * q + 1) * (4 * i + 1)) as -> by lia.
  rewrite Nat2Z.inj_succ, Z.pow_succ_r by lia.
  replace (i + 2 ^ Z.of_nat k * (2 * q + 1) * (4 * i + 1) - (i + 2 ^ Z.of_nat k))
    with ((q + 4 * q * i + 2 * i) * (2 * 2 ^ Z.of_nat k)) by ring.
  apply Z.mod_mul. assert (0 < 2 ^ Z.of_nat k) by (apply Z.pow_pos_nonneg; lia). lia.
Qed.

Lemma lcg_mod n i j m : (i - j) mod m = 0 → (lcg n i - lcg n j) mod m = 0.
Proof.
  intros Hij. induction n as [|n IH]; simpl; [done|].
  replace (lcg n i * 5 + 1 - (lcg n j * 5 + 1)) with ((lcg n i - lcg n j) * 5) by ring.
  destruct (decide (m = 0)) as [->|Hm].
  - rewrite Z.mod_0_r in *. lia.
  - apply Z.mod_divide in IH; [|done]. apply Z.mod_divide; [done|].
    by apply Z.divide_mul_l.
Qed.

(** The recurrence reaches every residue modulo [2^k] within [2^k] steps. *)
Lemma lcg_covers (k : nat) i t :
  ∃ n, (n < 2 ^ k)%nat ∧ (lcg n i - t) mod 2 ^ Z.of_nat k = 0.
Proof.
  revert i t. induction k as [|k IH]; intros i t.
  - exists 0%nat. split; [simpl; lia|]. simpl. apply Z.mod_1_r.
  - destruct (IH i t) as (n & Hn & Hnt).
    assert (0 < 2 ^ Z.of_nat k) as Hpos by (apply Z.pow_pos_nonneg; lia).
    assert (2 ^ Z.of_nat (S k) = 2 * 2 ^ Z.of_nat k) as Hpow.
    { rewrite Nat2Z.inj_succ, Z.pow_succ_r; lia. }
    apply Z.mod_divide in Hnt as [c Hc]; [|lia].
    destruct (Z.even c) eqn:Hev.
    + exists n. split; [simpl; lia|].
      apply Z.even_spec in Hev as [c' ->]. rewrite Hc, Hpow.
      replace (2 * c' * 2 ^ Z.of_nat k) with (c' * (2 * 2 ^ Z.of_nat k)) by ring.
      apply Z.mod_mul. lia.
    + exists (2 ^ k + n)%nat. split; [simpl; lia|].
      rewrite lcg_add.
      pose proof (lcg_pow2 k (lcg n i)) as Hstep.
      apply Z.mod_divide in Hstep as [d Hd]; [|lia].
      assert (Z.odd c = true) as [c' ->]%Z.odd_spec.
      { by rewrite <-Z.negb_even, Hev. }
      replace (lcg (2 ^ k) (lcg n i) - t)
        with ((lcg (2 ^ k) (lcg n i) - (lcg n i + 2 ^ Z.of_nat k))
              + (lcg n i - t) + 2 ^ Z.of_nat k) by ring.
      rewrite Hd, Hc, Hpow.
      replace (d * (2 * 2 ^ Z.of_nat k) + (2 * c' + 1) * 2 ^ Z.of_nat k + 2 ^ Z.of_nat k)
        with ((d + c' + 1) * (2 * 2 ^ Z.of_nat k)) by ring.
      apply Z.mod_mul. lia.
Qed.

(** One round of the probe loop after the window: the next slot and the
    next [perturb]. *)
Definition next_probe (mask : Z) (s : Z * Z) : Z * Z :=
  let perturb := s.2 ≫ PERTURB_SHIFT in
  (Z.land (s.1 * 5 + 1 + perturb) mask, perturb).

Fixpoint probe_state (n : nat) (mask : Z) (s : Z * Z) : Z * Z :=
  match n with
  | O => s
  | S n' => next_probe mask (probe_state n' mask s)
  end.

Lemma probe_state_shift n mask s :
  probe_state (S n) mask s = probe_state n mask (next_probe mask s).
Proof. induction n as [|n IH]; [done|]. simpl in *. by rewrite IH. Qed.

Lemma probe_state_add a b mask s :
  probe_state (a + b) mask s = probe_state a mask (probe_state b mask s).
Proof. induction a as [|a IH]; simpl; [done|]. by rewrite IH. Qed.

Lemma scan_None t i probes : scan t i probes = None → unused t i = false.
Proof. destruct probes; simpl; by destruct (unused t i). Qed.

(** A probe that gives up has found the first slot of every round used. *)
Lemma probe_None fuel t mask i perturb n :
  probe fuel t mask i perturb = None → (n < fuel)%nat →
  unused t (probe_state n mask (i, perturb)).1 = false.
Proof.
  revert i perturb n. induction fuel as [|f IH]; intros i perturb n; [lia|].
  simpl. destruct (scan _ _ _) eqn:Hs; [done|]. intros Hp Hn.
  destruct n as [|n]; [by eapply scan_None|].
  rewrite probe_state_shift. apply IH; [done | lia].
Qed.

Lemma probe_state_perturb n mask s :
  (probe_state n mask s).2 = s.2 ≫ (PERTURB_SHIFT * Z.of_nat n).
Proof.
  induction n as [|n IH]; simpl.
  - by rewrite Z.mul_0_r, Z.shiftr_0_r.
  - rewrite IH, Z.shiftr_shiftr by (unfold PERTURB_SHIFT; lia). f_equal.
    unfold PERTURB_SHIFT. lia.
Qed.

(** [perturb] is a 64-bit value: it is 0 from the 13th round on. *)
Lemma probe_state_perturb_0 mask i perturb :
  0 ≤ perturb < 2 ^ 64 → (probe_state 13 mask (i, perturb)).2 = 0.
Proof.
  intros Hp. rewrite probe_state_perturb. simpl.
  rewrite Z.shiftr_div_pow2 by (unfold PERTURB_SHIFT; lia).
  apply Z.div_small. unfold PERTURB_SHIFT. simpl. lia.
Qed.

Lemma land_mask (k : nat) x : Z.land x (2 ^ Z.of_nat k - 1) = x mod 2 ^ Z.of_nat k.
Proof. rewrite <-Z.land_ones by lia. f_equal. rewrite Z.ones_equiv. lia. Qed.

(** With [perturb] at 0 the slots follow the recurrence modulo the table
    size. *)
Lemma probe_state_lcg (k : nat) n i :
  let s := probe_state n (2 ^ Z.of_nat k - 1) (i, 0) in
  s.2 = 0 ∧ (n ≠ 0%nat → 0 ≤ s.1 < 2 ^ Z.of_nat k) ∧
  (s.1 - lcg n i) mod 2 ^ Z.of_nat k = 0.
Proof.
  assert (0 < 2 ^ Z.of_nat k) as Hpos by (apply Z.pow_pos_nonneg; lia).
  induction n as [|n (Hp & _ & Hl)]; simpl.
  - split_and!; [done.. |]. by rewrite Z.sub_diag, Z.mod_0_l by lia.
  - rewrite Hp. change (0 ≫ PERTURB_SHIFT) with 0. rewrite Z.add_0_r, land_mask.
    split_and!; [done | |].
    + intros _. by apply Z.mod_pos_bound.
    + rewrite Zminus_mod_idemp_l.
      set (j := (probe_state n (2 ^ Z.of_nat k - 1) (i, 0)).1) in *.
      replace (j * 5 + 1 - (lcg n i * 5 + 1)) with ((j - lcg n i) * 5) by ring.
      apply Z.mod_divide in Hl; [|lia]. apply Z.mod_divide; [lia|].
      by apply Z.divide_mul_l.
Qed.

(** Every slot of a table of [2^k] slots is the first slot of one of the
    rounds 13, ..., [12 + 2^k]. *)
Lemma probe_state_covers (k : nat) i perturb u :
  0 ≤ perturb < 2 ^ 64 → 0 ≤ u < 2 ^ Z.of_nat k →
  ∃ n, (n < 13 + 2 ^ k)%nat ∧
       (probe_state n (2 ^ Z.of_nat k - 1) (i, perturb)).1 = u.
Proof.
  intros Hp Hu. set (mask := 2 ^ Z.of_nat k - 1).
  destruct (probe_state 13 mask (i, perturb)) as [i13 p13] eqn:H13.
  assert (p13 = 0) as ->.
  { pose proof (probe_state_perturb_0 mask i perturb Hp) as H0. by rewrite H13 in H0. }
  assert (0 ≤ i13 < 2 ^ Z.of_nat k) as Hi13.
  { change (probe_state 13 mask (i, perturb))
      with (next_probe mask (probe_state 12 mask (i, perturb))) in H13.
    destruct (probe_state 12 mask (i, perturb)) as [i12 p12].
    unfold next_probe in H13. simpl in H13. injection H13 as <- _. unfold mask.
    rewrite land_mask. apply Z.mod_pos_bound, Z.pow_pos_nonneg; lia. }
  destruct (lcg_covers k i13 u) as (n & Hn & Hcov).
  exists (n + 13)%nat. split; [lia|].
  rewrite probe_state_add, H13.
  destruct (probe_state_lcg k n i13) as (_ & Hrange & Hl). fold mask in Hrange, Hl.
  assert (0 ≤ (probe_state n mask (i13, 0)).1 < 2 ^ Z.of_nat k) as Hr.
  { destruct n; [done | by apply Hrange]. }
  assert (0 < 2 ^ Z.of_nat k) as Hpos by lia.
  apply Z.mod_divide in Hl as [a Ha]; [|lia].
  apply Z.mod_divide in Hcov as [b Hb]; [|lia].
  assert ((probe_state n mask (i13, 0)).1 - u = (a + b) * 2 ^ Z.of_nat k) as Hd by lia.
  assert (a + b = 0) by nia. lia.
Qed.

(** *** The table always has room *)

(** A table a probe can store into: a power-of-two number of slots, not
    all of them used. *)
Definition roomy (t : table) : Prop :=
  ∃ k : nat, length t = (2 ^ k)%nat ∧ (length (keys t) < length t)%nat.

(** The load a set keeps between two insertions: [fill * 5 < mask * 3]. *)
Definition sparse (t : table) : Prop :=
  ∃ k : nat, length t = (2 ^ k)%nat ∧
    Z.of_nat (length (keys t)) * 5 < (Z.of_nat (length t) - 1) * 3.

Lemma keys_length_le t : (length (keys t) ≤ length t)%nat.
Proof. induction t as [|[v|] t IH]; simpl; lia. Qed.

Lemma unused_exists t :
  (length (keys t) < length t)%nat → ∃ u, (u < length t)%nat ∧ t !! u = Some None.
Proof.
  induction t as [|[v|] t IH]; simpl; [lia| |].
  - intros Hlt. destruct IH as (u & Hu & Ht); [lia|]. exists (S u). split; [lia | done].
  - intros _. exists 0%nat. split; [lia | done].
Qed.

Lemma sparse_roomy t : sparse t → roomy t.
Proof. intros (k & Hk & Hload). exists k. split; [done | lia]. Qed.

Lemma pow2_nat_Z (k : nat) : Z.of_nat (2 ^ k) = 2 ^ Z.of_nat k.
Proof. by rewrite Nat2Z.inj_pow. Qed.

(** In a roomy table the probe loop finds an unused slot. *)
Lemma probe_finds t v :
  roomy t →
  ∃ j, probe (14 + length t) t (Z.of_nat (length t) - 1)
         (Z.land (long_hash v) (Z.of_nat (length t) - 1)) (long_hash v mod 2 ^ 64)
       = Some j.
Proof.
  intros (k & Hk & Hroom).
  destruct (probe _ _ _ _ _) as [j|] eqn:Hp; [by eexists|exfalso].
  destruct (unused_exists t Hroom) as (u & Hu & Ht).
  rewrite Hk, pow2_nat_Z in Hp.
  destruct (probe_state_covers k (Z.land (long_hash v) (2 ^ Z.of_nat k - 1))
              (long_hash v mod 2 ^ 64) (Z.of_nat u)) as (n & Hn & Hcov).
  { apply Z.mod_pos_bound. lia. }
  { rewrite <-pow2_nat_Z. lia. }
  pose proof (probe_None _ _ _ _ _ n Hp) as Hused.
  rewrite Hcov in Hused. unfold unused in Hused.
  rewrite Nat2Z.id, bool_decide_eq_true_2 in Hused by done.
  assert (n < 14 + 2 ^ k)%nat by lia. by specialize (Hused ltac:(done)).
Qed.

(** So [place] stores the key in a slot of the table. *)
Lemma place_roomy t v :
  roomy t →
  ∃ j, t !! j = Some None ∧ place t v = <[j := Some v]> t.
Proof.
  intros Ht. destruct (probe_finds t v Ht) as [j Hj]. unfold place. rewrite Hj.
  exists (Z.to_nat j). split; [|done]. apply probe_unused in Hj.
  unfold unused in Hj. by apply bool_decide_eq_true in Hj.
Qed.

Lemma place_length t v : roomy t → length (place t v) = length t.
Proof.
  intros (j & _ & ->)%(place_roomy t v). apply length_insert.
Qed.

Lemma keys_place_length t v : length (keys (place t v)) = S (length (keys t)).
Proof. by rewrite keys_place. Qed.

Lemma foldl_place_length l t (k : nat) :
  length t = (2 ^ k)%nat → (length (keys t) + length l < length t)%nat →
  length (foldl place t l) = length t.
Proof.
  revert t. induction l as [|v l IH]; intros t Hk Hroom; simpl in *; [done|].
  assert (roomy t) as Ht by (exists k; split; [done | lia]).
  rewrite IH; rewrite ?place_length, ?keys_place_length by done; [done..|lia].
Qed.

Lemma newsize_loop_spec fuel newsize minused :
  0 < newsize → minused < newsize * 2 ^ Z.of_nat fuel →
  ∃ j : nat, newsize_loop fuel newsize minused = newsize * 2 ^ Z.of_nat j ∧
             minused < newsize_loop fuel newsize minused.
Proof.
  revert newsize. induction fuel as [|f IH]; intros newsize Hpos Hm; simpl.
  - exists 0%nat. simpl in *. lia.
  - case_decide as Hle.
    + rewrite Z.shiftl_mul_pow2 by lia. change (2 ^ 1) with 2.
      destruct (IH (newsize * 2)) as (j & Hj & Hlt); [lia| |].
      { rewrite Nat2Z.inj_succ, Z.pow_succ_r in Hm by lia. lia. }
      exists (S j). rewrite Hj in *. split; [|done].
      rewrite Nat2Z.inj_succ, Z.pow_succ_r by lia. lia.
    + exists 0%nat. simpl. lia.
Qed.

Lemma set_table_resize_sparse t minused :
  0 < Z.of_nat (length (keys t)) → Z.of_nat (length (keys t)) * 2 ≤ minused →
  sparse (set_table_resize t minused).
Proof.
  intros Hused Hmin. unfold set_table_resize.
  destruct (newsize_loop_spec (Z.to_nat minused) PySet_MINSIZE minused)
    as (j & Hj & Hlt); [done| |].
  { rewrite Z2Nat.id by lia. unfold PySet_MINSIZE.
    pose proof (Z.pow_gt_lin_r 2 minused). lia. }
  set (newsize := newsize_loop (Z.to_nat minused) PySet_MINSIZE minused) in *.
  assert (Z.to_nat newsize = 2 ^ (3 + j))%nat as Hsize.
  { apply Nat2Z.inj. rewrite pow2_nat_Z, Z2Nat.id by lia.
    rewrite Hj, Nat2Z.inj_add, Z.pow_add_r by lia. done. }
  assert (length (foldl place (replicate (Z.to_nat newsize) None) (keys t)) =
          Z.to_nat newsize) as Hlen.
  { rewrite (foldl_place_length _ _ (3 + j)); rewrite ?length_replicate, ?keys_clean;
      [done..|]. simpl. lia. }
  exists (3 + j)%nat. split; [by rewrite Hlen|].
  rewrite Hlen, keys_foldl_place, keys_clean, app_nil_r. lia.
Qed.

Lemma set_add_key_sparse t v : sparse t → sparse (set_add_key t v).
Proof.
  intros Ht. unfold set_add_key. case_decide as Hv; [done|].
  pose proof (place_length t v (sparse_roomy t Ht)) as Hlen.
  pose proof (keys_place_length t v) as Hkeys.
  case_decide as Hload.
  - destruct Ht as (k & Hk & _). exists k. rewrite Hlen. split; [done | lia].
  - apply set_table_resize_sparse; [lia|]. case_decide; lia.
Qed.

Lemma clean_sparse : sparse (replicate (Z.to_nat PySet_MINSIZE) None).
Proof. exists 3%nat. rewrite keys_clean. split; [done|]. simpl. lia. Qed.

(** Every table a set goes through while it is built is sparse, so each
    key is stored in a slot found by the probe loop. *)
Lemma foldl_set_add_key_sparse l t : sparse t → sparse (foldl set_add_key t l).
Proof.
  revert t. induction l as [|v l IH]; intros t Ht; simpl; [done|].
  by apply IH, set_add_key_sparse.
Qed.
End CPythonFacts.

#[export] Program Instance cpython_set : PySet := {| set_iter := CPython.iter |}.
Next Obligation.
  intros l. unfold CPython.iter.
  apply (foldl_add_NoDup CPython.set_add_key CPython.keys CPythonFacts.keys_add_NoDup).
  rewrite CPythonFacts.keys_clean. constructor.
Qed.
Next Obligation.
  intros l v. unfold CPython.iter.
  rewrite (foldl_add_elem CPython.set_add_key CPython.keys CPythonFacts.keys_add_elem).
  rewrite CPythonFacts.keys_clean, elem_of_nil. tauto.
Qed.

(** ** Loops and lookups *)

(** Two results agree: both raise the same exception, or both return and
    the values are related. *)
Definition agree {A B} (R : A → B → Prop) (r1 : result A) (r2 : result B) : Prop :=
  match r1, r2 with
  | Ok a, Ok b => R a b
  | Raise e1, Raise e2 => e1 = e2
  | _, _ => False
  end.

Section for_each.
Context {St A : Type}.

Lemma for_each_app (body : St → A → result St) s l1 l2 :
  for_each body s (l1 ++ l2) = let* s' := for_each body s l1 in for_each body s' l2.
Proof.
  revert s. induction l1 as [|a l1 IH]; intros s; simpl; [done|].
  destruct (body s a); simpl; auto.
Qed.

(** An invariant indexed by the part of the list already processed. *)
Lemma for_each_prefix (P : list A → St → Prop) (body : St → A → result St) l s0 s :
  P [] s0 →
  (∀ pre a s1 s2, P pre s1 → body s1 a = Ok s2 → P (pre ++ [a]) s2) →
  for_each body s0 l = Ok s → P l s.
Proof.
  intros H0 Hstep. change l with ([] ++ l) at 2.
  generalize dependent s0. generalize (@nil A) as pre.
  induction l as [|a l IH]; intros pre s0 Hpre; simpl.
  - intros [= <-]. by rewrite app_nil_r.
  - destruct (body s0 a) as [s1|e] eqn:Hb; simpl; [|done].
    intros Hl. rewrite cons_middle, app_assoc. eapply IH; [|done]. eauto.
Qed.

(** A loop raises only what one of its iterations raises. *)
Lemma for_each_raise (body : St → A → result St) l s0 e :
  for_each body s0 l = Raise e → ∃ s a, a ∈ l ∧ body s a = Raise e.
Proof.
  revert s0. induction l as [|a l IH]; intros s0; simpl; [done|].
  destruct (body s0 a) as [s1|e'] eqn:Hb; simpl.
  - intros (s & b & Hb' & Hr)%IH. exists s, b. split; [by right | done].
  - intros [= ->]. exists s0, a. split; [by left | done].
Qed.
End for_each.

(** Two loops over the same list, run in lock step. *)
Lemma for_each_agree {S1 S2 A} (R : S1 → S2 → Prop)
    (body1 : S1 → A → result S1) (body2 : S2 → A → result S2) l s1 s2 :
  (∀ a t1 t2, a ∈ l → R t1 t2 → agree R (body1 t1 a) (body2 t2 a)) →
  R s1 s2 → agree R (for_each body1 s1 l) (for_each body2 s2 l).
Proof.
  revert s1 s2. induction l as [|a l IH]; intros s1 s2 Hstep HR; simpl; [done|].
  pose proof (Hstep a s1 s2 (list_elem_of_here _ _) HR) as Ha.
  destruct (body1 s1 a), (body2 s2 a); simpl in *; try done.
  apply IH; [|done]. intros b t1 t2 Hb. apply Hstep. by right.
Qed.

Lemma index_Ok v l i :
  index v l = Ok i → l !! i = Some v ∧ (i < length l)%nat.
Proof.
  revert i. induction l as [|a l IH]; intros i; simpl; [done|].
  case_decide as Ha.
  - intros [= <-]. subst. split; [done | lia].
  - destruct (index v l) as [j|] eqn:Hj; simpl; [|done].
    intros [= <-]. destruct (IH j eq_refl). split; [done | lia].
Qed.

Lemma index_elem v l : v ∈ l → ∃ i, index v l = Ok i.
Proof.
  induction l as [|a l IH]; simpl; [by intros ?%elem_of_nil|].
  intros Hv. case_decide as Ha; [by eexists|].
  apply elem_of_cons in Hv as [->|Hv]; [done|].
  destruct (IH Hv) as [i ->]. by eexists.
Qed.

Lemma index_raise v l e : index v l = Raise e → v ∉ l.
Proof.
  intros He Hv. apply index_elem in Hv as [i Hi]. congruence.
Qed.

Lemma sorted_elem l v : v ∈ sorted l ↔ v ∈ l.
Proof. unfold sorted. by rewrite merge_sort_Permutation. Qed.

Section axes.
Context `{PySet}.

Lemma xs_elem ms doc v :
  v ∈ xs ms doc ↔ ∃ led, led ∈ rgb_matrix_layout doc ∧ v = sel_x ms led.
Proof.
  unfold xs. rewrite set_iter_elem, sorted_elem, list_elem_of_fmap.
  split; intros (led & ? & ?); eauto.
Qed.

Lemma ys_elem ms doc v :
  v ∈ ys ms doc ↔ ∃ led, led ∈ rgb_matrix_layout doc ∧ v = sel_y ms led.
Proof.
  unfold ys. rewrite set_iter_elem, sorted_elem, list_elem_of_fmap.
  split; intros (led & ? & ?); eauto.
Qed.

Lemma xs_NoDup ms doc : NoDup (xs ms doc).
Proof. apply set_iter_NoDup. Qed.

Lemma ys_NoDup ms doc : NoDup (ys ms doc).
Proof. apply set_iter_NoDup. Qed.

(** The width is the number of distinct selected X values. *)
Lemma xs_length ms doc :
  length (xs ms doc) = length (remove_dups (sel_x ms <$> rgb_matrix_layout doc)).
Proof.
  apply Permutation_length, NoDup_Permutation;
    [apply xs_NoDup | apply NoDup_remove_dups |].
  intros v. unfold xs.
  by rewrite set_iter_elem, sorted_elem, elem_of_remove_dups.
Qed.

Lemma ys_length ms doc :
  length (ys ms doc) = length (remove_dups (sel_y ms <$> rgb_matrix_layout doc)).
Proof.
  apply Permutation_length, NoDup_Permutation;
    [apply ys_NoDup | apply NoDup_remove_dups |].
  intros v. unfold ys.
  by rewrite set_iter_elem, sorted_elem, elem_of_remove_dups.
Qed.
End axes.

(** With a set that iterates in insertion order the two axis lists are in
    ascending order: the call to [sorted] fixes the order in which the
    values enter the set. *)
Lemma foldl_ordered_add_ascending acc l :
  StronglySorted Z.le l → StronglySorted Z.lt acc →
  (∀ a b, a ∈ acc → b ∈ l → a ≤ b) →
  StronglySorted Z.lt (foldl ordered_add acc l).
Proof.
  revert acc. induction l as [|v l IH]; intros acc Hl Hacc Hle; simpl; [done|].
  apply StronglySorted_cons in Hl as [Hv Hl]. rewrite Forall_forall in Hv.
  apply IH; [done | |]; unfold ordered_add; case_decide as Hin; try done.
  - apply StronglySorted_app_2; [|done|repeat constructor].
    intros a b Ha Hb%list_elem_of_singleton. subst b.
    assert (a ≤ v) by (apply Hle; [done | by left]).
    assert (a ≠ v) by congruence. lia.
  - intros a b Ha Hb. apply Hle; [done | by right].
  - intros a b [Ha | Ha%list_elem_of_singleton]%elem_of_app Hb.
    + apply Hle; [done | by right].
    + subst a. by apply Hv.
Qed.

Lemma ordered_iter_ascending l : StronglySorted Z.lt (ordered_iter (sorted l)).
Proof.
  apply foldl_ordered_add_ascending.
  - apply StronglySorted_merge_sort; apply _.
  - constructor.
  - by intros a b ?%elem_of_nil.
Qed.

(** Under a set that iterates in insertion order both axis lists are
    strictly ascending. *)
Lemma ordered_axes_ascending ms doc :
  StronglySorted Z.lt (@xs ordered_set ms doc) ∧
  StronglySorted Z.lt (@ys ordered_set ms doc).
Proof. split; apply ordered_iter_ascending. Qed.

(** ** One iteration, taken apart *)

(** The raw label the metadata gives a LED, if any: [key["label"]] for the
    first entry [key] with the LED's matrix pair. *)
Definition candidate (doc : Doc) (led : Led) : option str :=
  match led_matrix led, layouts doc with
  | Some m, Some meta => k ← key meta m; key_label k
  | _, _ => None
  end.

(** The matrix pair used for the memos, when the LED goes through them. *)
Definition memo_key (matrix_sizing : bool) (doc : Doc) (led : Led) : option (Z * Z) :=
  match led_matrix led, layouts doc with
  | Some m, Some _ => if matrix_sizing then Some m else None
  | _, _ => None
  end.

Section step.
Variable ucd : N → option str.

(** The counter and the name after a LED, from the counter before it. *)
Definition resolve_name (doc : Doc) (n : nat) (led : Led) : result (nat * str) :=
  match candidate doc led with
  | Some l => let* l' := sanitize ucd l in Ok (n, l')
  | None => Ok (S n, light (S n))
  end.

(** The grid position and the memos after a LED, from the two ranks. *)
Definition resolve_pos (matrix_sizing : bool) (doc : Doc) (st : Loop) (led : Led)
    (ledx ledy : nat) : (nat * gmap Z nat) * (nat * gmap Z nat) :=
  match memo_key matrix_sizing doc led with
  | Some m => (setdefault (matxs st) m.1 ledx, setdefault (matys st) m.2 ledy)
  | None => ((ledx, matxs st), (ledy, matys st))
  end.

Lemma led_step_eq ms doc xs ys st led :
  led_step ucd ms doc xs ys st led =
    let* ledx := index (sel_x ms led) xs in
    let* ledy := index (sel_y ms led) ys in
    let* (n, name) := resolve_name doc (unnamed st) led in
    let '((gx, mx), (gy, my)) := resolve_pos ms doc st led ledx ledy in
    Ok {| unnamed := n; matxs := mx; matys := my;
          vkeynames := vkeynames st ++ [name];
          vkeypositions := vkeypositions st ++ [(gx, gy)] |}.
Proof.
  unfold led_step, resolve_name, resolve_pos, candidate, memo_key, lookup_label.
  destruct (index (sel_x ms led) xs) as [ledx|]; simpl; [|done].
  destruct (index (sel_y ms led) ys) as [ledy|]; simpl; [|done].
  destruct (led_matrix led) as [m|], (layouts doc) as [meta|]; simpl; try done.
  destruct ms; simpl.
  - destruct (setdefault (matxs st) m.1 ledx), (setdefault (matys st) m.2 ledy).
    destruct (key meta m) as [k|]; simpl; [|done].
    destruct (key_label k) as [l|]; simpl; [|done].
    by destruct (sanitize ucd l).
  - destruct (key meta m) as [k|]; simpl; [|done].
    destruct (key_label k) as [l|]; simpl; [|done].
    by destruct (sanitize ucd l).
Qed.

(** What a successful iteration did. *)
Lemma led_step_Ok ms doc xs ys st led st' :
  led_step ucd ms doc xs ys st led = Ok st' →
  ∃ ledx ledy name gx gy,
    index (sel_x ms led) xs = Ok ledx ∧
    index (sel_y ms led) ys = Ok ledy ∧
    resolve_name doc (unnamed st) led = Ok (unnamed st', name) ∧
    vkeynames st' = vkeynames st ++ [name] ∧
    resolve_pos ms doc st led ledx ledy = ((gx, matxs st'), (gy, matys st')) ∧
    vkeypositions st' = vkeypositions st ++ [(gx, gy)].
Proof.
  rewrite led_step_eq.
  destruct (index (sel_x ms led) xs) as [ledx|]; simpl; [|done].
  destruct (index (sel_y ms led) ys) as [ledy|]; simpl; [|done].
  destruct (resolve_name doc (unnamed st) led) as [[n name]|]; simpl; [|done].
  destruct (resolve_pos ms doc st led ledx ledy) as [[gx mx] [gy my]] eqn:Hpos.
  intros [= <-]. simpl. by exists ledx, ledy, name, gx, gy.
Qed.

(** An iteration raises only what the label clean-up raises, as long as
    both selected coordinates are on their axes. *)
Lemma led_step_agree_name ms doc xs ys st led :
  sel_x ms led ∈ xs → sel_y ms led ∈ ys →
  agree (λ st' r, unnamed st' = r.1 ∧ vkeynames st' = vkeynames st ++ [r.2])
        (led_step ucd ms doc xs ys st led)
        (resolve_name doc (unnamed st) led).
Proof.
  intros [ledx Hx]%index_elem [ledy Hy]%index_elem.
  rewrite led_step_eq, Hx, Hy. simpl.
  destruct (resolve_name doc (unnamed st) led) as [[n name]|]; simpl; [|done].
  by destruct (resolve_pos ms doc st led ledx ledy) as [[gx mx] [gy my]].
Qed.
End step.

(** ** Sample documents *)

(** Two entries of the Unicode name table. *)
Definition ucd_excerpt (c : N) : option str :=
  if (c =? 233)%N then Some (lit "LATIN SMALL LETTER E WITH ACUTE")
  else if (c =? 8594)%N then Some (lit "RIGHTWARDS ARROW")
  else None.

(** A LED without and with a [matrix] attribute. *)
Definition led (x y : Z) : Led :=
  {| led_x := x; led_y := y; led_matrix := None |}.
Definition mled (x y row col : Z) : Led :=
  {| led_x := x; led_y := y; led_matrix := Some (row, col) |}.

Definition labelled (row col : Z) (l : string) : KeyMeta :=
  {| key_matrix := (row, col); key_label := Some (lit l) |}.

(** ** The empty layout *)

Lemma set_iter_nil `{PySet} : set_iter [] = [].
Proof.
  destruct (set_iter []) as [|v l] eqn:Hl; [done|].
  assert (v ∈ @nil Z) as ?%elem_of_nil; [|done].
  apply set_iter_elem. rewrite Hl. by left.
Qed.

(** C9: with an empty [rgb_matrix.layout] the transform returns, with width
    0, height 0 and three empty tables. *)
Theorem transform_empty_layout `{PySet} (ucd : N → option str) (ms : bool)
    (lay : option (list KeyMeta)) :
  transform ucd ms {| rgb_matrix_layout := []; layouts := lay |} =
    Ok {| width := 0; height := 0; ledIndices := []; ledNames := [];
          ledPositions := [] |}.
Proof.
  unfold transform, run_loop, xs, ys. simpl.
  change (sorted []) with (@nil Z). by rewrite set_iter_nil.
Qed.

(** ** Positions stay inside the grid *)

Section bounds.
Context `{PySet}.
Variable ucd : N → option str.
Variables (ms : bool) (doc : Doc).

(** Every memo entry and every position so far is a rank on its axis. *)
Definition in_grid (nx ny : nat) (st : Loop) : Prop :=
  map_Forall (λ _ v, (v < nx)%nat) (matxs st) ∧
  map_Forall (λ _ v, (v < ny)%nat) (matys st) ∧
  Forall (λ p, (p.1 < nx)%nat ∧ (p.2 < ny)%nat) (vkeypositions st).

Lemma setdefault_bound (d : gmap Z nat) k v n r :
  map_Forall (λ _ w, (w < n)%nat) d → (v < n)%nat →
  setdefault d k v = r → (r.1 < n)%nat ∧ map_Forall (λ _ w, (w < n)%nat) r.2.
Proof.
  intros Hd Hv <-. unfold setdefault. destruct (d !! k) as [w|] eqn:Hk; simpl.
  - split; [by eapply Hd | done].
  - split; [done | by apply map_Forall_insert_2].
Qed.

Lemma led_step_in_grid xs ys st led st' :
  in_grid (length xs) (length ys) st →
  led_step ucd ms doc xs ys st led = Ok st' →
  in_grid (length xs) (length ys) st'.
Proof.
  intros (Hmx & Hmy & Hpos) (ledx & ledy & name & gx & gy & Hx & Hy & _ & _ & Hp & Hps)
    %led_step_Ok.
  apply index_Ok in Hx as [_ Hx]. apply index_Ok in Hy as [_ Hy].
  assert ((gx < length xs)%nat ∧ map_Forall (λ _ w, (w < length xs)%nat) (matxs st') ∧
          (gy < length ys)%nat ∧ map_Forall (λ _ w, (w < length ys)%nat) (matys st'))
    as (Hgx & Hmx' & Hgy & Hmy').
  { unfold resolve_pos in Hp. destruct (memo_key ms doc led) as [m|].
    - injection Hp as Hpx Hpy.
      destruct (setdefault_bound _ _ _ _ _ Hmx Hx Hpx).
      destruct (setdefault_bound _ _ _ _ _ Hmy Hy Hpy). done.
    - by injection Hp as <- <- <- <-. }
  split_and!; [done..|]. rewrite Hps. apply Forall_app. split; [done|].
  by constructor.
Qed.

Lemma run_loop_in_grid st :
  run_loop ucd ms doc = Ok st →
  in_grid (length (xs ms doc)) (length (ys ms doc)) st ∧
  length (vkeypositions st) = length (rgb_matrix_layout doc) ∧
  length (vkeynames st) = length (rgb_matrix_layout doc).
Proof.
  unfold run_loop.
  apply (for_each_prefix (λ pre st,
    in_grid (length (xs ms doc)) (length (ys ms doc)) st ∧
    length (vkeypositions st) = length pre ∧ length (vkeynames st) = length pre)).
  - split; [|done]. split_and!; [apply map_Forall_empty..|constructor].
  - intros pre a s1 s2 (Hg & Hlp & Hln) Hstep. split; [by eapply led_step_in_grid|].
    apply led_step_Ok in Hstep as (? & ? & ? & ? & ? & _ & _ & _ & -> & _ & ->).
    rewrite !length_app. simpl. lia.
Qed.

(** The rank lookups of the loop cannot fail. *)
Lemma lookup_total led :
  led ∈ rgb_matrix_layout doc →
  (∃ i, index (sel_x ms led) (xs ms doc) = Ok i) ∧
  (∃ j, index (sel_y ms led) (ys ms doc) = Ok j).
Proof.
  intros Hled. split; apply index_elem; [apply xs_elem | apply ys_elem]; eauto.
Qed.

(** The clean-up raises nothing but what [unicodedata.name] raises. *)
Lemma sanitize_raise l e :
  sanitize ucd l = Raise e → e = TypeError_name ∨ e = ValueError_name.
Proof.
  unfold sanitize. destruct (negb (isascii l)); simpl; [|done].
  unfold unicodedata_name. destruct l as [|c [|]]; simpl.
  - intros [= <-]. by left.
  - destruct (ucd c); simpl; [done|]. intros [= <-]. by right.
  - intros [= <-]. by left.
Qed.

(** Whatever the loop raises was raised by the clean-up of the label of one
    of the LEDs. *)
Lemma run_loop_raise e :
  run_loop ucd ms doc = Raise e →
  ∃ led l, led ∈ rgb_matrix_layout doc ∧ candidate doc led = Some l ∧
           sanitize ucd l = Raise e.
Proof.
  intros (st & a & Ha & Hstep)%for_each_raise.
  destruct (lookup_total a Ha) as [[i Hi] [j Hj]].
  rewrite led_step_eq, Hi, Hj in Hstep. simpl in Hstep.
  unfold resolve_name in Hstep. destruct (candidate doc a) as [l|] eqn:Hc.
  - exists a, l. split_and!; [done..|].
    destruct (sanitize ucd l) as [l'|e']; simpl in Hstep; [|congruence].
    by destruct (resolve_pos ms doc st a i j) as [[] []].
  - simpl in Hstep. by destruct (resolve_pos ms doc st a i j) as [[] []].
Qed.

Lemma run_loop_no_ValueError_index : run_loop ucd ms doc ≠ Raise ValueError_index.
Proof.
  intros (led & l & _ & _ & [?|?]%sanitize_raise)%run_loop_raise; done.
Qed.

(** The transform returns its tables as soon as the clean-up returns on the
    label of every LED. *)
Lemma transform_returns :
  (∀ led l, led ∈ rgb_matrix_layout doc → candidate doc led = Some l →
            ∃ l', sanitize ucd l = Ok l') →
  ∃ t, transform ucd ms doc = Ok t.
Proof.
  intros Hall. unfold transform.
  destruct (run_loop ucd ms doc) as [st|e] eqn:Hst; simpl; [by eexists|].
  apply run_loop_raise in Hst as (led & l & Hled & Hc & Hl).
  destruct (Hall led l Hled Hc) as [l' Hl']. congruence.
Qed.
End bounds.

(** C5: in both modes every selected coordinate is on its axis, so the rank
    lookup never raises, and every position the transform returns lies
    inside the width-by-height grid, one position per LED. *)
Theorem positions_in_grid `{PySet} (ucd : N → option str) (ms : bool) (doc : Doc) :
  (∀ led, led ∈ rgb_matrix_layout doc →
     sel_x ms led ∈ xs ms doc ∧ sel_y ms led ∈ ys ms doc ∧
     (∃ i, index (sel_x ms led) (xs ms doc) = Ok i) ∧
     (∃ j, index (sel_y ms led) (ys ms doc) = Ok j)) ∧
  transform ucd ms doc ≠ Raise ValueError_index ∧
  (∀ t, transform ucd ms doc = Ok t →
     length (ledPositions t) = length (rgb_matrix_layout doc) ∧
     Forall (λ p, (0 ≤ p.1 < width t)%nat ∧ (0 ≤ p.2 < height t)%nat)
            (ledPositions t)).
Proof.
  split_and!.
  - intros led Hled. destruct (lookup_total ms doc led Hled). split_and!; try done.
    + apply xs_elem; eauto.
    + apply ys_elem; eauto.
  - unfold transform. pose proof (run_loop_no_ValueError_index ucd ms doc).
    destruct (run_loop ucd ms doc); simpl; congruence.
  - intros t. unfold transform.
    destruct (run_loop ucd ms doc) as [st|] eqn:Hst; simpl; [|done].
    intros [= <-]. simpl.
    apply run_loop_in_grid in Hst as ((_ & _ & Hpos) & Hlen & _). split; [done|].
    eapply Forall_impl; [done|]. simpl. lia.
Qed.

(** ** Fallback names *)

Global Instance lit_inj : Inj (=) (=) lit.
Proof.
  intros s1 s2. unfold lit. revert s2.
  induction s1 as [|a s1 IH]; intros [|b s2]; simpl; try done.
  intros [= Hab Hs]. f_equal; [|by apply IH].
  by rewrite <-(ascii_N_embedding a), <-(ascii_N_embedding b), Hab.
Qed.

Global Instance light_inj : Inj (=) (=) light.
Proof.
  intros n1 n2. unfold light, str_of_nat. intros Hn%app_inv_head.
  by apply (inj pretty), (inj lit).
Qed.

(** The names of the LEDs of [leds] for which the metadata gives no label. *)
Definition fallback_names (doc : Doc) (leds : list Led) (names : list str) : list str :=
  snd <$> filter (λ p, candidate doc p.1 = None) (zip leds names).

(** The number of LEDs without a label among the first [i] of [leds]. *)
Definition unlabelled_before (doc : Doc) (leds : list Led) (i : nat) : nat :=
  length (filter (λ led, candidate doc led = None) (take i leds)).

Section fallback.
Context `{PySet}.
Variable ucd : N → option str.
Variables (ms : bool) (doc : Doc).

Lemma fallback_names_snoc leds names led name :
  length leds = length names →
  fallback_names doc (leds ++ [led]) (names ++ [name]) =
    fallback_names doc leds names ++
    (if decide (candidate doc led = None) then [name] else []).
Proof.
  intros Hlen. unfold fallback_names.
  rewrite zip_with_app by done. rewrite filter_app, fmap_app. f_equal.
  simpl. rewrite filter_cons, filter_nil. simpl. by case_decide.
Qed.

Lemma run_loop_fallback st :
  run_loop ucd ms doc = Ok st →
  fallback_names doc (rgb_matrix_layout doc) (vkeynames st) =
    light <$> seq 1 (unnamed st).
Proof.
  intros Hst.
  enough (length (rgb_matrix_layout doc) = length (vkeynames st) ∧
          fallback_names doc (rgb_matrix_layout doc) (vkeynames st) =
            light <$> seq 1 (unnamed st)) as [_ ?]; [done|].
  revert Hst. unfold run_loop.
  apply (for_each_prefix (λ pre st,
    length pre = length (vkeynames st) ∧
    fallback_names doc pre (vkeynames st) = light <$> seq 1 (unnamed st))); [done|].
  intros pre a s1 s2 [Hlen Hfb]
    (? & ? & name & ? & ? & _ & _ & Hname & Hnames & _)%led_step_Ok.
  rewrite Hnames, length_app, length_app, Hlen. split; [done|].
  rewrite fallback_names_snoc, Hfb by done.
  unfold resolve_name in Hname. destruct (candidate doc a) as [l|] eqn:Hc.
  - destruct (sanitize ucd l); simpl in Hname; [|done].
    injection Hname as <- _. rewrite decide_False by done. by rewrite app_nil_r.
  - injection Hname as <- <-. rewrite decide_True by done.
    by rewrite seq_S, fmap_app.
Qed.
(** The counter and the names after the loop: the counter is the number of
    LEDs without a label, there is one name per LED, and the name of a LED
    is its label cleaned up, or "Light N" with N one more than the number of
    LEDs without a label before it. *)
Lemma run_loop_names_exact st :
  run_loop ucd ms doc = Ok st →
  unnamed st = unlabelled_before doc (rgb_matrix_layout doc)
                 (length (rgb_matrix_layout doc)) ∧
  length (vkeynames st) = length (rgb_matrix_layout doc) ∧
  ∀ i led, rgb_matrix_layout doc !! i = Some led →
    ∃ name, vkeynames st !! i = Some name ∧
      match candidate doc led with
      | Some l => sanitize ucd l = Ok name
      | None => name = light (S (unlabelled_before doc (rgb_matrix_layout doc) i))
      end.
Proof.
  unfold run_loop.
  apply (for_each_prefix (λ pre st,
    unnamed st = unlabelled_before doc pre (length pre) ∧
    length (vkeynames st) = length pre ∧
    ∀ i led, pre !! i = Some led →
      ∃ name, vkeynames st !! i = Some name ∧
        match candidate doc led with
        | Some l => sanitize ucd l = Ok name
        | None => name = light (S (unlabelled_before doc pre i))
        end)).
  { split_and!; [done..|]. intros i led Hi. by rewrite lookup_nil in Hi. }
  intros pre a s1 s2 (Hn & Hlen & Hnames)
    (? & ? & name & ? & ? & _ & _ & Hname & Hv & _)%led_step_Ok.
  assert (unlabelled_before doc (pre ++ [a]) (length pre) =
          unlabelled_before doc pre (length pre)) as Hbefore.
  { unfold unlabelled_before. by rewrite take_app_length, firstn_all. }
  split_and!.
  - unfold unlabelled_before in *. rewrite firstn_all in *.
    rewrite filter_app, length_app, <-Hn, filter_cons, filter_nil.
    unfold resolve_name in Hname. destruct (candidate doc a) as [l|] eqn:Hc.
    + destruct (sanitize ucd l); simpl in Hname; [|done].
      injection Hname as <- _. rewrite decide_False by done. simpl. lia.
    + injection Hname as <- _. rewrite decide_True by done. simpl. lia.
  - rewrite Hv, !length_app, Hlen. done.
  - intros i led Hi. rewrite Hv.
    destruct (decide (i < length pre)%nat) as [Hlt|Hge].
    + rewrite lookup_app_l in Hi by done.
      destruct (Hnames i led Hi) as (name' & Hname' & Hrel).
      exists name'. rewrite lookup_app_l by lia. split; [done|].
      destruct (candidate doc led); [done|].
      unfold unlabelled_before in *. by rewrite take_app_le by lia.
    + assert (i = length pre) as ->.
      { apply lookup_lt_Some in Hi. rewrite length_app in Hi. simpl in Hi. lia. }
      rewrite list_lookup_middle in Hi by done. injection Hi as <-.
      exists name. rewrite list_lookup_middle by done. split; [done|].
      unfold resolve_name in Hname. destruct (candidate doc a) as [l|] eqn:Hc.
      * destruct (sanitize ucd l); simpl in Hname; [|done]. by injection Hname as _ <-.
      * injection Hname as _ <-. by rewrite Hbefore, <-Hn.
Qed.

Lemma transform_names_exact t :
  transform ucd ms doc = Ok t →
  length (ledNames t) = length (rgb_matrix_layout doc) ∧
  ∀ i led, rgb_matrix_layout doc !! i = Some led →
    ∃ name, ledNames t !! i = Some name ∧
      match candidate doc led with
      | Some l => sanitize ucd l = Ok name
      | None => name = light (S (unlabelled_before doc (rgb_matrix_layout doc) i))
      end.
Proof.
  unfold transform. destruct (run_loop ucd ms doc) as [st|] eqn:Hst; simpl; [|done].
  intros [= <-]. simpl. by apply run_loop_names_exact in Hst as (_ & ? & ?).
Qed.
End fallback.

(** C7: the LEDs that get no metadata label are named, in processing order,
    "Light 1", "Light 2", ..., so their names are pairwise distinct: there
    is one name per LED, a LED without a label is named "Light N" with N
    one more than the number of LEDs without a label before it, and the
    names of these LEDs, taken in order, are "Light 1" up to "Light k", k
    being their number. *)
Theorem fallback_names_sequential `{PySet} (ucd : N → option str) (ms : bool)
    (doc : Doc) (t : Tables) :
  transform ucd ms doc = Ok t →
  let names := fallback_names doc (rgb_matrix_layout doc) (ledNames t) in
  length (ledNames t) = length (rgb_matrix_layout doc) ∧
  length names =
    length (filter (λ led, candidate doc led = None) (rgb_matrix_layout doc)) ∧
  (∀ i led, rgb_matrix_layout doc !! i = Some led → candidate doc led = None →
     ledNames t !! i =
       Some (lit "Light " ++
             lit (pretty (S (unlabelled_before doc (rgb_matrix_layout doc) i))))) ∧
  names = light <$> seq 1 (length names) ∧
  (∀ n, (n < length names)%nat → names !! n = Some (lit "Light " ++ lit (pretty (S n)))) ∧
  NoDup names.
Proof.
  intros Ht.
  destruct (transform_names_exact ucd ms doc t Ht) as [Hlen Hnames].
  unfold transform in Ht.
  destruct (run_loop ucd ms doc) as [st|] eqn:Hst; simpl in Ht; [|done].
  injection Ht as <-. cbn [ledNames] in *.
  pose proof (run_loop_names_exact ucd ms doc st Hst) as (Hn & _ & _).
  rewrite (run_loop_fallback ucd ms doc st Hst).
  rewrite length_fmap, length_seq. split_and!; [done | | | done | |].
  - rewrite Hn. unfold unlabelled_before. by rewrite firstn_all.
  - intros i led Hi Hc. destruct (Hnames i led Hi) as (name & Hname & Hrel).
    rewrite Hc in Hrel. subst name. exact Hname.
  - intros n Hlt. rewrite list_lookup_fmap, lookup_seq_lt by done. done.
  - apply (NoDup_fmap_2 _), NoDup_seq.
Qed.

(** ** Names taken from the metadata *)

(** The name of a LED is the cleaned-up label when the metadata gives one,
    and a fallback name otherwise. *)
Definition named (ucd : N → option str) (doc : Doc) (led : Led) (name : str) : Prop :=
  match candidate doc led with
  | Some l => sanitize ucd l = Ok name
  | None => ∃ n, name = light n
  end.

Section names.
Context `{PySet}.
Variable ucd : N → option str.
Variables (ms : bool) (doc : Doc).

Lemma resolve_name_named n led n' name :
  resolve_name ucd doc n led = Ok (n', name) → named ucd doc led name.
Proof.
  unfold resolve_name, named. destruct (candidate doc led) as [l|].
  - destruct (sanitize ucd l); simpl; [|done]. by intros [= _ ->].
  - intros [= _ <-]. eauto.
Qed.

Lemma run_loop_named st :
  run_loop ucd ms doc = Ok st →
  Forall2 (named ucd doc) (rgb_matrix_layout doc) (vkeynames st).
Proof.
  unfold run_loop.
  apply (for_each_prefix (λ pre st, Forall2 (named ucd doc) pre (vkeynames st)));
    [constructor|].
  intros pre a s1 s2 Hpre (? & ? & name & ? & ? & _ & _ & Hname & -> & _)%led_step_Ok.
  apply Forall2_app; [done|]. repeat constructor. by eapply resolve_name_named.
Qed.

Lemma transform_named t i led :
  transform ucd ms doc = Ok t → rgb_matrix_layout doc !! i = Some led →
  ∃ name, ledNames t !! i = Some name ∧ named ucd doc led name.
Proof.
  unfold transform. destruct (run_loop ucd ms doc) as [st|] eqn:Hst; simpl; [|done].
  intros [= <-] Hi. simpl. apply run_loop_named in Hst.
  destruct (Forall2_lookup_l _ _ _ _ _ Hst Hi) as (name & ? & ?). eauto.
Qed.

(** A label the clean-up raises on leaves the file without tables. *)
Lemma transform_raise led l e :
  led ∈ rgb_matrix_layout doc → candidate doc led = Some l →
  sanitize ucd l = Raise e → ∃ e', transform ucd ms doc = Raise e'.
Proof.
  intros [i Hi]%list_elem_of_lookup Hc Hl.
  destruct (transform ucd ms doc) as [t|e'] eqn:Ht; [|by eexists].
  destruct (transform_named t i led Ht Hi) as (name & _ & Hn).
  unfold named in Hn. rewrite Hc in Hn. congruence.
Qed.
End names.

(** The first metadata entry with a given matrix pair is the one found. *)
Lemma key_first pre k post m :
  Forall (λ k', key_matrix k' ≠ m) pre → key_matrix k = m →
  key (pre ++ k :: post) m = Some k.
Proof.
  intros Hpre Hk. unfold key. induction Hpre as [|k' pre Hk' _ IH]; simpl.
  - by rewrite bool_decide_eq_true_2.
  - by rewrite bool_decide_eq_false_2.
Qed.

(** C10: when several metadata entries carry the matrix pair of a LED, the
    one that comes first in the metadata decides: it is the entry found, the
    label candidate is its label, and the LED's name is that label cleaned
    up. *)
Theorem first_matching_entry_wins `{PySet} (ucd : N → option str) (ms : bool)
    (doc : Doc) (pre post : list KeyMeta) (k : KeyMeta) (led : Led) (m : Z * Z) :
  layouts doc = Some (pre ++ k :: post) →
  led_matrix led = Some m →
  Forall (λ k', key_matrix k' ≠ m) pre →
  key_matrix k = m →
  key (pre ++ k :: post) m = Some k ∧
  candidate doc led = key_label k ∧
  lookup_label ucd (pre ++ k :: post) m = lookup_label ucd [k] m ∧
  (∀ t i l, transform ucd ms doc = Ok t → rgb_matrix_layout doc !! i = Some led →
     key_label k = Some l →
     ∃ name, ledNames t !! i = Some name ∧ sanitize ucd l = Ok name).
Proof.
  intros Hmeta Hled Hpre Hk.
  pose proof (key_first pre k post m Hpre Hk) as Hkey.
  assert (candidate doc led = key_label k) as Hc.
  { unfold candidate. by rewrite Hled, Hmeta, Hkey. }
  split_and!; [done..| |].
  - unfold lookup_label. rewrite Hkey. unfold key. simpl.
    by rewrite bool_decide_eq_true_2.
  - intros t i l Ht Hi Hl.
    destruct (transform_named ucd ms doc t i led Ht Hi) as (name & ? & Hn).
    unfold named in Hn. rewrite Hc, Hl in Hn. eauto.
Qed.

(** ** An empty label *)

Lemma sanitize_empty ucd : sanitize ucd [] = Ok [].
Proof. done. Qed.

(** The lookup yields no label: the LED has no matrix attribute, or the
    document has no layouts, or no metadata entry carries the LED's matrix
    pair, or the first entry that does has no label. *)
Definition no_label (doc : Doc) (led : Led) : Prop :=
  led_matrix led = None ∨ layouts doc = None ∨
  ∃ m meta, led_matrix led = Some m ∧ layouts doc = Some meta ∧
    (Forall (λ k, key_matrix k ≠ m) meta ∨
     ∃ k, key meta m = Some k ∧ key_label k = None).

Lemma key_None meta m : key meta m = None ↔ Forall (λ k, key_matrix k ≠ m) meta.
Proof.
  unfold key. induction meta as [|k meta IH]; simpl.
  - split; [constructor | done].
  - rewrite Forall_cons. case_bool_decide as Hk; [|tauto].
    split; [done | by intros [? _]].
Qed.

Lemma candidate_None doc led : candidate doc led = None ↔ no_label doc led.
Proof.
  unfold candidate, no_label.
  destruct (led_matrix led) as [m|]; [|by split; [left|]].
  destruct (layouts doc) as [meta|]; [|by split; [right; left|]].
  destruct (key meta m) as [k|] eqn:Hk; simpl.
  - split.
    + intros Hl. right. right. exists m, meta. split_and!; [done..|]. right. eauto.
    + intros [? | [? | (m' & meta' & [= <-] & [= <-] & [Hnone | (k' & Hk' & Hl)])]];
        try done.
      * apply key_None in Hnone. congruence.
      * congruence.
  - split; [|done]. intros _. right. right. exists m, meta.
    split_and!; [done..|]. left. by apply key_None.
Qed.

(** C4, as the code has it: a LED whose metadata entry has the empty string
    as its label is named with the empty string and leaves the counter of
    unnamed LEDs as it was. The fallback name is given exactly when the
    lookup yields no label at all: such a LED raises the counter by one and
    is named "Light N" with the new count, N being one more than the number
    of LEDs without a label before it; a LED with a label, empty or not,
    leaves the counter alone and is named with its label cleaned up. *)
Theorem empty_label_is_kept `{PySet} (ucd : N → option str) (ms : bool)
    (doc : Doc) :
  (∀ led, candidate doc led = Some [] →
     (∀ n, resolve_name ucd doc n led = Ok (n, [])) ∧
     (∀ xs ys st st', led_step ucd ms doc xs ys st led = Ok st' →
        unnamed st' = unnamed st ∧ vkeynames st' = vkeynames st ++ [[]]) ∧
     (∀ t i, transform ucd ms doc = Ok t → rgb_matrix_layout doc !! i = Some led →
        ledNames t !! i = Some [])) ∧
  (∀ led, candidate doc led = None ↔ no_label doc led) ∧
  (∀ led xs ys st st', led_step ucd ms doc xs ys st led = Ok st' →
     match candidate doc led with
     | None =>
         unnamed st' = S (unnamed st) ∧
         vkeynames st' = vkeynames st ++ [lit "Light " ++ lit (pretty (S (unnamed st)))]
     | Some l =>
         unnamed st' = unnamed st ∧
         ∃ name, sanitize ucd l = Ok name ∧ vkeynames st' = vkeynames st ++ [name]
     end) ∧
  (∀ t i led, transform ucd ms doc = Ok t → rgb_matrix_layout doc !! i = Some led →
     ∃ name, ledNames t !! i = Some name ∧
       match candidate doc led with
       | None =>
           name = lit "Light " ++
                  lit (pretty (S (unlabelled_before doc (rgb_matrix_layout doc) i)))
       | Some l => sanitize ucd l = Ok name
       end).
Proof.
  split_and!.
  - intros led Hc.
    assert (∀ n, resolve_name ucd doc n led = Ok (n, [])) as Hn.
    { intros n. unfold resolve_name. by rewrite Hc. }
    split_and!; [done| |].
    + intros xs0 ys0 st st' (? & ? & name & ? & ? & _ & _ & Hname & -> & _)%led_step_Ok.
      rewrite Hn in Hname. by injection Hname as <- <-.
    + intros t i Ht Hi.
      destruct (transform_named ucd ms doc t i led Ht Hi) as (name & Hname & Hnamed).
      unfold named in Hnamed. rewrite Hc, sanitize_empty in Hnamed.
      by injection Hnamed as <-.
  - intros led. apply candidate_None.
  - intros led xs0 ys0 st st' (? & ? & name & ? & ? & _ & _ & Hname & -> & _)%led_step_Ok.
    unfold resolve_name in Hname. destruct (candidate doc led) as [l|].
    + destruct (sanitize ucd l) as [l'|]; simpl in Hname; [|done].
      injection Hname as <- <-. split; [done|]. by exists l'.
    + by injection Hname as <- <-.
  - intros t i led Ht Hi.
    destruct (transform_names_exact ucd ms doc t Ht) as [_ Hnames].
    destruct (Hnames i led Hi) as (name & Hname & Hrel). exists name.
    split; [done|]. by destruct (candidate doc led).
Qed.

(** ** Escaping *)

(** What the two replacements do to one character. *)
Definition escape_char (c : N) : str :=
  if (c =? backslash)%N then [backslash; backslash]
  else if (c =? dquote)%N then [backslash; dquote]
  else [c].

(** No backslash or double quote stands bare: read from the left, every
    backslash is followed by a backslash or a double quote, which it
    escapes, and no double quote appears outside such a pair. *)
Fixpoint well_escaped (s : str) : bool :=
  match s with
  | [] => true
  | c :: s' =>
      if (c =? backslash)%N then
        match s' with
        | d :: s'' => ((d =? backslash)%N || (d =? dquote)%N) && well_escaped s''
        | [] => false
        end
      else if (c =? dquote)%N then false
      else well_escaped s'
  end.

(** Reading the escapes back: a backslash stands for the character after
    it. *)
Fixpoint unescape (s : str) : str :=
  match s with
  | [] => []
  | c :: s' =>
      if (c =? backslash)%N then
        match s' with
        | d :: s'' => d :: unescape s''
        | [] => [c]
        end
      else c :: unescape s'
  end.

Lemma replace_absent old new s : contains old s = false → replace old new s = s.
Proof.
  unfold replace. induction s as [|c s IH]; simpl; [done|].
  intros [Hc Hs]%orb_false_elim. rewrite N.eqb_sym, Hc. simpl. f_equal. by apply IH.
Qed.

(** The guarded replacement is the replacement. *)
Lemma replace_guarded old new s :
  (if contains old s then replace old new s else s) = replace old new s.
Proof.
  destruct (contains old s) eqn:Hc; [done|]. by rewrite replace_absent.
Qed.

Lemma replace_cons old new c s :
  replace old new (c :: s) = (if (c =? old)%N then new else [c]) ++ replace old new s.
Proof. done. Qed.

Lemma replace_app old new s1 s2 :
  replace old new (s1 ++ s2) = replace old new s1 ++ replace old new s2.
Proof. apply bind_app. Qed.

Lemma replace_twice s :
  replace dquote [backslash; dquote] (replace backslash [backslash; backslash] s) =
    s ≫= escape_char.
Proof.
  induction s as [|c s IH]; [done|].
  rewrite replace_cons, replace_app, IH, bind_cons. f_equal.
  unfold escape_char. destruct (c =? backslash)%N eqn:Hb; [done|].
  rewrite replace_cons. destruct (c =? dquote)%N; done.
Qed.

Lemma well_escaped_pair d s :
  well_escaped (backslash :: d :: s) =
    ((d =? backslash)%N || (d =? dquote)%N) && well_escaped s.
Proof. done. Qed.

Lemma well_escaped_plain c s :
  (c =? backslash)%N = false → (c =? dquote)%N = false →
  well_escaped (c :: s) = well_escaped s.
Proof. intros Hb Hq. simpl. by rewrite Hb, Hq. Qed.

Lemma unescape_pair d s : unescape (backslash :: d :: s) = d :: unescape s.
Proof. done. Qed.

Lemma unescape_plain c s :
  (c =? backslash)%N = false → unescape (c :: s) = c :: unescape s.
Proof. intros Hb. simpl. by rewrite Hb. Qed.

Lemma escape_well_escaped s : well_escaped (s ≫= escape_char) = true.
Proof.
  induction s as [|c s IH]; [done|]. rewrite bind_cons. unfold escape_char at 1.
  destruct (c =? backslash)%N eqn:Hb; [cbn [app]; by rewrite well_escaped_pair|].
  destruct (c =? dquote)%N eqn:Hq; [cbn [app]; by rewrite well_escaped_pair|].
  cbn [app]. by rewrite well_escaped_plain.
Qed.

Lemma unescape_escape s : unescape (s ≫= escape_char) = s.
Proof.
  induction s as [|c s IH]; [done|]. rewrite bind_cons. unfold escape_char at 1.
  destruct (c =? backslash)%N eqn:Hb.
  { apply N.eqb_eq in Hb as ->. cbn [app]. by rewrite unescape_pair, IH. }
  destruct (c =? dquote)%N eqn:Hq.
  { apply N.eqb_eq in Hq as ->. cbn [app]. by rewrite unescape_pair, IH. }
  cbn [app]. by rewrite unescape_plain, IH.
Qed.

Lemma sanitize_ascii ucd lbl :
  isascii lbl = true → sanitize ucd lbl = Ok (lbl ≫= escape_char).
Proof.
  intros Ha. unfold sanitize. rewrite Ha. simpl.
  by rewrite !replace_guarded, replace_twice.
Qed.

(** C6: a label that passes the ASCII check comes out with each backslash
    as two backslashes and each double quote as backslash-quote, every other
    character unchanged; the result has no bare backslash or double quote,
    reads back to the label, and is the name the LED gets. *)
Theorem escaping_law (ucd : N → option str) (lbl : str) :
  isascii lbl = true →
  sanitize ucd lbl = Ok (lbl ≫= escape_char) ∧
  sanitize ucd lbl =
    Ok (replace dquote [backslash; dquote]
          (replace backslash [backslash; backslash] lbl)) ∧
  well_escaped (lbl ≫= escape_char) = true ∧
  unescape (lbl ≫= escape_char) = lbl ∧
  (∀ (set : PySet) ms doc t i led,
     transform ucd ms doc = Ok t → rgb_matrix_layout doc !! i = Some led →
     candidate doc led = Some lbl →
     ledNames t !! i = Some (lbl ≫= escape_char)).
Proof.
  intros Ha. pose proof (sanitize_ascii ucd lbl Ha) as Hs.
  split_and!; [done | by rewrite replace_twice | apply escape_well_escaped
              | apply unescape_escape |].
  intros set ms doc t i led Ht Hi Hc.
  destruct (transform_named ucd ms doc t i led Ht Hi) as (name & Hname & Hnamed).
  unfold named in Hnamed. rewrite Hc, Hs in Hnamed. by injection Hnamed as <-.
Qed.

(** ** When the clean-up raises *)

(** C3, as the code has it: the clean-up returns a string exactly for the
    all-ASCII labels and for the one-character labels whose character has a
    Unicode name. For an all-ASCII label the string is the label with its
    backslashes and double quotes escaped; for a one-character label
    outside ASCII it is the Unicode name of the character, escaped the same
    way, which so replaces the label. On any other label [unicodedata.name]
    raises, a TypeError when the label is not one character long and a
    ValueError when its one character has no name, and a LED with such a
    label leaves the file without tables. *)
Theorem sanitize_defined (ucd : N → option str) (lbl : str) :
  match sanitize ucd lbl with
  | Ok s =>
      (isascii lbl = true ∧ s = lbl ≫= escape_char) ∨
      (isascii lbl = false ∧
       ∃ c n, lbl = [c] ∧ ucd c = Some n ∧ unicodedata_name ucd lbl = Ok n ∧
              s = n ≫= escape_char)
  | Raise e =>
      isascii lbl = false ∧
      ((e = TypeError_name ∧ length lbl ≠ 1%nat) ∨
       (e = ValueError_name ∧ ∃ c, lbl = [c] ∧ ucd c = None)) ∧
      unicodedata_name ucd lbl = Raise e ∧
      (∀ (set : PySet) ms doc led,
         led ∈ rgb_matrix_layout doc → candidate doc led = Some lbl →
         ∃ e', transform ucd ms doc = Raise e')
  end.
Proof.
  destruct (sanitize ucd lbl) as [s|e] eqn:Hs.
  - unfold sanitize in Hs. destruct (isascii lbl) eqn:Ha; simpl in Hs.
    + rewrite !replace_guarded, replace_twice in Hs. injection Hs as <-. by left.
    + unfold unicodedata_name in *.
      destruct lbl as [|c [|]]; simpl in Hs; try done.
      destruct (ucd c) as [n|] eqn:Hc; simpl in Hs; [|done].
      rewrite !replace_guarded, replace_twice in Hs. injection Hs as <-.
      right. split; [done|]. exists c, n. by rewrite Hc.
  - assert (isascii lbl = false) as Ha.
    { destruct (isascii lbl) eqn:Ha; [|done]. by rewrite sanitize_ascii in Hs. }
    assert (unicodedata_name ucd lbl = Raise e) as Hname.
    { unfold sanitize in Hs. rewrite Ha in Hs. simpl in Hs.
      by destruct (unicodedata_name ucd lbl). }
    split_and!; [done | | done |].
    + unfold unicodedata_name in Hname. destruct lbl as [|c [|]].
      * injection Hname as <-. by left.
      * destruct (ucd c) as [n|] eqn:Hc; [done|].
        injection Hname as <-. right. eauto.
      * injection Hname as <-. by left.
    + intros set ms doc led Hled Hc. by eapply transform_raise.
Qed.

(** ** The iteration order of the set *)

(** Two loop states with the same counter and the same names. *)
Definition same_names (st1 st2 : Loop) : Prop :=
  unnamed st1 = unnamed st2 ∧ vkeynames st1 = vkeynames st2.

(** What two runs return, whatever order their sets iterate in. *)
Definition same_but_positions (t1 t2 : Tables) : Prop :=
  width t1 = width t2 ∧ height t1 = height t2 ∧
  ledIndices t1 = ledIndices t2 ∧ ledNames t1 = ledNames t2 ∧
  length (ledPositions t1) = length (ledPositions t2).

Section two_sets.
Variables set1 set2 : PySet.
Variable ucd : N → option str.
Variables (ms : bool) (doc : Doc).

Lemma led_step_same_names xs1 ys1 xs2 ys2 st1 st2 led :
  sel_x ms led ∈ xs1 → sel_y ms led ∈ ys1 →
  sel_x ms led ∈ xs2 → sel_y ms led ∈ ys2 →
  same_names st1 st2 →
  agree same_names (led_step ucd ms doc xs1 ys1 st1 led)
                   (led_step ucd ms doc xs2 ys2 st2 led).
Proof.
  intros Hx1 Hy1 Hx2 Hy2 [Hn Hv].
  pose proof (led_step_agree_name ucd ms doc xs1 ys1 st1 led Hx1 Hy1) as H1.
  pose proof (led_step_agree_name ucd ms doc xs2 ys2 st2 led Hx2 Hy2) as H2.
  rewrite <-Hn, <-Hv in H2.
  destruct (led_step ucd ms doc xs1 ys1 st1 led) as [s1|e1],
    (led_step ucd ms doc xs2 ys2 st2 led) as [s2|e2],
    (resolve_name ucd doc (unnamed st1) led) as [[n name]|e]; simpl in *;
    try done; [|congruence].
  destruct H1 as [E1 E2], H2 as [E3 E4]. split; congruence.
Qed.

Lemma run_loop_same_names :
  agree same_names (@run_loop set1 ucd ms doc) (@run_loop set2 ucd ms doc).
Proof.
  unfold run_loop. apply for_each_agree; [|done].
  intros led t1 t2 Hled Ht.
  apply led_step_same_names; [apply xs_elem | apply ys_elem
    | apply xs_elem | apply ys_elem | done]; eauto.
Qed.

Lemma width_same : length (@xs set1 ms doc) = length (@xs set2 ms doc).
Proof. by rewrite !xs_length. Qed.

Lemma height_same : length (@ys set1 ms doc) = length (@ys set2 ms doc).
Proof. by rewrite !ys_length. Qed.
End two_sets.

(** What does not depend on the iteration order of the built-in set:
    whether the transform returns or raises, and which exception, the width,
    the height, the LED indices, the LED names and the number of positions.
    The positions depend on that order only through the two axis lists. *)
Theorem transform_set_order (set1 set2 : PySet) (ucd : N → option str) (ms : bool)
    (doc : Doc) :
  agree same_but_positions (@transform set1 ucd ms doc) (@transform set2 ucd ms doc) ∧
  (@xs set1 ms doc = @xs set2 ms doc → @ys set1 ms doc = @ys set2 ms doc →
   @transform set1 ucd ms doc = @transform set2 ucd ms doc).
Proof.
  split.
  - pose proof (run_loop_same_names set1 set2 ucd ms doc) as Hl.
    unfold transform.
    destruct (@run_loop set1 ucd ms doc) as [s1|e1] eqn:H1,
      (@run_loop set2 ucd ms doc) as [s2|e2] eqn:H2; simpl in *; try done.
    destruct Hl as [_ Hv].
    apply (@run_loop_in_grid set1) in H1 as (_ & Hp1 & _).
    apply (@run_loop_in_grid set2) in H2 as (_ & Hp2 & _).
    unfold same_but_positions. simpl.
    split_and!; [apply width_same | apply height_same | done | done | congruence].
  - intros Hx Hy. unfold transform, run_loop. by rewrite Hx, Hy.
Qed.

(** ** The code on sample documents *)

(** Two LEDs, at x = 1 and x = 8, on one row. *)
Definition doc_two_columns : Doc :=
  {| rgb_matrix_layout := [led 1 0; led 8 0]; layouts := None |}.

(** Five LEDs down one column, at the usual y = 0, 16, 32, 48, 64. *)
Definition doc_five_rows : Doc :=
  {| rgb_matrix_layout := [led 0 0; led 0 16; led 0 32; led 0 48; led 0 64];
     layouts := None |}.

(** Four LEDs of a key matrix, with their keys. *)
Definition doc_matrix : Doc :=
  {| rgb_matrix_layout := [mled 0 0 0 0; mled 20 0 0 1; mled 20 20 1 1; mled 40 20 1 2];
     layouts := Some [labelled 0 0 "Esc"; labelled 0 1 "F1";
                      labelled 1 1 "Q"; labelled 1 2 "W"] |}.

(** The second LED's key has the empty string as its label. *)
Definition doc_empty_label : Doc :=
  {| rgb_matrix_layout := [led 0 0; mled 10 0 0 1; led 20 0];
     layouts := Some [{| key_matrix := (0, 1); key_label := Some [] |}] |}.

(** The LED's key is labelled with two characters, the first not ASCII. *)
Definition doc_long_label : Doc :=
  {| rgb_matrix_layout := [mled 0 0 0 0];
     layouts := Some [{| key_matrix := (0, 0); key_label := Some [233; 49]%N |}] |}.

(** The LED's key is labelled with U+0080, which has no name. *)
Definition doc_nameless_label : Doc :=
  {| rgb_matrix_layout := [mled 0 0 0 0];
     layouts := Some [{| key_matrix := (0, 0); key_label := Some [128]%N |}] |}.

(** Two metadata entries for the matrix pair (1, 2). *)
Definition doc_two_entries : Doc :=
  {| rgb_matrix_layout := [mled 0 0 1 2];
     layouts := Some [labelled 0 0 "Esc"; labelled 1 2 "A"; labelled 1 2 "B"] |}.

(** C1 wants both axis lists in ascending order and each gridX, gridY the
    ascending rank of the LED's coordinate. The code at two documents: under
    CPython's set the axis list of the x values 1 and 8 is [8; 1], so the
    LED at x = 1 gets gridX 1 and the LED at x = 8 gets gridX 0; the axis
    list of the y values 0, 16, 32, 48, 64 is [0; 32; 64; 16; 48], so the
    five LEDs get gridY 0, 3, 1, 4, 2. *)
Theorem cpython_axes_unsorted :
  @xs cpython_set false doc_two_columns = [8; 1] ∧
  @transform cpython_set ucd_excerpt false doc_two_columns =
    Ok {| width := 2; height := 1; ledIndices := [0; 1]%nat;
          ledNames := [lit "Light 1"; lit "Light 2"];
          ledPositions := [(1, 0); (0, 0)]%nat |} ∧
  @ys cpython_set false doc_five_rows = [0; 32; 64; 16; 48] ∧
  ledPositions <$> (match @transform cpython_set ucd_excerpt false doc_five_rows with
                    | Ok t => Some t | Raise _ => None end) =
    Some [(0, 0); (0, 3); (0, 1); (0, 4); (0, 2)]%nat.
Proof. vm_compute. done. Qed.

(** C2 wants LEDs of one matrix row on one gridY and LEDs of one matrix
    column on one gridX, in matrix-sizing mode with metadata. The code at a
    document with the matrix pairs (0,0), (0,1), (1,1), (1,2): the second
    and third LED share matrix column 1 and get gridX 0 and 1; the third and
    fourth share matrix row 1 and get gridY 0 and 1. *)
Theorem matrix_memo_keys_swapped :
  @transform cpython_set ucd_excerpt true doc_matrix =
    Ok {| width := 3; height := 2; ledIndices := [0; 1; 2; 3]%nat;
          ledNames := [lit "Esc"; lit "F1"; lit "Q"; lit "W"];
          ledPositions := [(0, 0); (0, 0); (1, 0); (1, 1)]%nat |}.
Proof. vm_compute. done. Qed.

(** C3, refuted: a two-character label with a non-ASCII character makes
    the clean-up, and with it the transform, raise a TypeError; a character
    without a name makes them raise a ValueError. *)
Lemma sanitize_raises :
  sanitize ucd_excerpt [233; 49]%N = Raise TypeError_name ∧
  @transform cpython_set ucd_excerpt false doc_long_label = Raise TypeError_name ∧
  sanitize ucd_excerpt [128]%N = Raise ValueError_name ∧
  @transform cpython_set ucd_excerpt false doc_nameless_label = Raise ValueError_name.
Proof. vm_compute. done. Qed.

(** C4, refuted: the LED whose key is labelled with the empty string is
    named with the empty string, and the next unnamed LED is "Light 2". *)
Lemma empty_label_not_fallback :
  @transform cpython_set ucd_excerpt false doc_empty_label =
    Ok {| width := 3; height := 1; ledIndices := [0; 1; 2]%nat;
          ledNames := [lit "Light 1"; []; lit "Light 2"];
          ledPositions := [(0, 0); (1, 0); (2, 0)]%nat |}.
Proof. vm_compute. done. Qed.

(** The positions are indices into the axis lists, and these are in the
    order in which the set lists the coordinates. The document with x = 1
    and x = 8: the positions are [(1, 0); (0, 0)] under CPython's set and
    [(0, 0); (1, 0)] under a set that iterates in insertion order. *)
Theorem positions_follow_set_order :
  ledPositions <$> (match @transform cpython_set ucd_excerpt false doc_two_columns with
                    | Ok t => Some t | Raise _ => None end) =
    Some [(1, 0); (0, 0)]%nat ∧
  ledPositions <$> (match @transform ordered_set ucd_excerpt false doc_two_columns with
                    | Ok t => Some t | Raise _ => None end) =
    Some [(0, 0); (1, 0)]%nat.
Proof. vm_compute. done. Qed.

(** * Two runs of the script *)

(** The script keeps everything in variables of the module, which live on
    from one file of a batch to the next (lines 358-430): a file is
    processed in whatever values the file before it, or an earlier run over
    the same file, left behind. [Vars] holds the variables the tables are
    computed from; the body of the [try] block is taken statement by
    statement as a change of these variables that may raise. After the loop
    the script rebinds [vkeynames] and [vkeypositions] to their texts (lines
    412-413); the next file assigns both anew before reading them, so the
    lists are kept here. *)
Record Vars : Type := {
  v_xs : list Z;
  v_ys : list Z;
  v_vkeys : list nat;
  v_loop : Loop;
  v_lbl : option str;
  v_ledx : nat;
  v_ledy : nat;
  v_key : option KeyMeta
}.

Definition set_xs (x : list Z) (v : Vars) : Vars :=
  {| v_xs := x; v_ys := v_ys v; v_vkeys := v_vkeys v; v_loop := v_loop v;
     v_lbl := v_lbl v; v_ledx := v_ledx v; v_ledy := v_ledy v; v_key := v_key v |}.
Definition set_ys (x : list Z) (v : Vars) : Vars :=
  {| v_xs := v_xs v; v_ys := x; v_vkeys := v_vkeys v; v_loop := v_loop v;
     v_lbl := v_lbl v; v_ledx := v_ledx v; v_ledy := v_ledy v; v_key := v_key v |}.
Definition set_vkeys (x : list nat) (v : Vars) : Vars :=
  {| v_xs := v_xs v; v_ys := v_ys v; v_vkeys := x; v_loop := v_loop v;
     v_lbl := v_lbl v; v_ledx := v_ledx v; v_ledy := v_ledy v; v_key := v_key v |}.
Definition set_loop (x : Loop) (v : Vars) : Vars :=
  {| v_xs := v_xs v; v_ys := v_ys v; v_vkeys := v_vkeys v; v_loop := x;
     v_lbl := v_lbl v; v_ledx := v_ledx v; v_ledy := v_ledy v; v_key := v_key v |}.
Definition set_lbl (x : option str) (v : Vars) : Vars :=
  {| v_xs := v_xs v; v_ys := v_ys v; v_vkeys := v_vkeys v; v_loop := v_loop v;
     v_lbl := x; v_ledx := v_ledx v; v_ledy := v_ledy v; v_key := v_key v |}.
Definition set_ledx (x : nat) (v : Vars) : Vars :=
  {| v_xs := v_xs v; v_ys := v_ys v; v_vkeys := v_vkeys v; v_loop := v_loop v;
     v_lbl := v_lbl v; v_ledx := x; v_ledy := v_ledy v; v_key := v_key v |}.
Definition set_ledy (x : nat) (v : Vars) : Vars :=
  {| v_xs := v_xs v; v_ys := v_ys v; v_vkeys := v_vkeys v; v_loop := v_loop v;
     v_lbl := v_lbl v; v_ledx := v_ledx v; v_ledy := x; v_key := v_key v |}.
Definition set_key (x : option KeyMeta) (v : Vars) : Vars :=
  {| v_xs := v_xs v; v_ys := v_ys v; v_vkeys := v_vkeys v; v_loop := v_loop v;
     v_lbl := v_lbl v; v_ledx := v_ledx v; v_ledy := v_ledy v; v_key := x |}.

Definition set_vkeynames (x : list str) (st : Loop) : Loop :=
  {| unnamed := unnamed st; matxs := matxs st; matys := matys st;
     vkeynames := x; vkeypositions := vkeypositions st |}.
Definition set_vkeypositions (x : list (nat * nat)) (st : Loop) : Loop :=
  {| unnamed := unnamed st; matxs := matxs st; matys := matys st;
     vkeynames := vkeynames st; vkeypositions := x |}.
Definition set_unnamed (x : nat) (st : Loop) : Loop :=
  {| unnamed := x; matxs := matxs st; matys := matys st;
     vkeynames := vkeynames st; vkeypositions := vkeypositions st |}.
Definition set_matxs (x : gmap Z nat) (st : Loop) : Loop :=
  {| unnamed := unnamed st; matxs := x; matys := matys st;
     vkeynames := vkeynames st; vkeypositions := vkeypositions st |}.
Definition set_matys (x : gmap Z nat) (st : Loop) : Loop :=
  {| unnamed := unnamed st; matxs := matxs st; matys := x;
     vkeynames := vkeynames st; vkeypositions := vkeypositions st |}.

(** A statement: the variables after it, and the exception if it raised. *)
Definition stmt : Type := Vars → Vars * option exn.

Definition assign (f : Vars → Vars) : stmt := λ v, (f v, None).

(** An assignment whose right-hand side may raise. *)
Definition assign_from {A} (e : Vars → result A) (f : A → Vars → Vars) : stmt :=
  λ v, match e v with
       | Ok a => (f a v, None)
       | Raise x => (v, Some x)
       end.

Definition then_ (s1 s2 : stmt) : stmt :=
  λ v, match s1 v with
       | (v', None) => s2 v'
       | (v', Some x) => (v', Some x)
       end.

Infix "⨾" := then_ (at level 62, right associativity).

Definition when (c : Vars → bool) (s : stmt) : stmt :=
  λ v, if c v then s v else (v, None).

Fixpoint for_in {A} (body : A → stmt) (l : list A) : stmt :=
  match l with
  | [] => λ v, (v, None)
  | a :: l' => body a ⨾ for_in body l'
  end.

Section script.
Context `{PySet}.
Variable ucd : N → option str.
Variable matrix_sizing : bool.

(** Lines 390-411, for one LED. *)
Definition led_stmts (doc : Doc) (led : Led) : stmt :=
  assign (set_lbl None) ⨾
  assign_from (λ v, index (sel_x matrix_sizing led) (v_xs v)) set_ledx ⨾
  assign_from (λ v, index (sel_y matrix_sizing led) (v_ys v)) set_ledy ⨾
  match led_matrix led, layouts doc with
  | Some m, Some meta =>
      assign (λ v,
        if matrix_sizing then
          let '(x, d) := setdefault (matxs (v_loop v)) m.1 (v_ledx v) in
          set_ledx x (set_loop (set_matxs d (v_loop v)) v)
        else v) ⨾
      assign (λ v,
        if matrix_sizing then
          let '(y, d) := setdefault (matys (v_loop v)) m.2 (v_ledy v) in
          set_ledy y (set_loop (set_matys d (v_loop v)) v)
        else v) ⨾
      assign (set_key (key meta m)) ⨾
      (λ v,
         match v_key v with
         | Some k =>
             match key_label k with
             | Some l =>
                 (assign (set_lbl (Some l)) ⨾
                  when (λ v, negb (isascii (default [] (v_lbl v))))
                    (assign_from (λ v, unicodedata_name ucd (default [] (v_lbl v)))
                                 (λ n, set_lbl (Some n))) ⨾
                  when (λ v, contains backslash (default [] (v_lbl v)))
                    (assign (λ v, set_lbl
                       (Some (replace backslash [backslash; backslash]
                                (default [] (v_lbl v)))) v)) ⨾
                  when (λ v, contains dquote (default [] (v_lbl v)))
                    (assign (λ v, set_lbl
                       (Some (replace dquote [backslash; dquote]
                                (default [] (v_lbl v)))) v))) v
             | None => (v, None)
             end
         | None => (v, None)
         end)
  | _, _ => λ v, (v, None)
  end ⨾
  when (λ v, bool_decide (v_lbl v = None))
    (assign (λ v, set_loop (set_unnamed (S (unnamed (v_loop v))) (v_loop v)) v) ⨾
     assign (λ v, set_lbl (Some (light (unnamed (v_loop v)))) v)) ⨾
  assign (λ v, set_loop
    (set_vkeynames (vkeynames (v_loop v) ++ [default [] (v_lbl v)]) (v_loop v)) v) ⨾
  assign (λ v, set_loop
    (set_vkeypositions (vkeypositions (v_loop v) ++ [(v_ledx v, v_ledy v)])
       (v_loop v)) v).

(** Lines 367-411, for one file. *)
Definition file_stmts (doc : Doc) : stmt :=
  assign (set_xs (xs matrix_sizing doc)) ⨾
  assign (set_ys (ys matrix_sizing doc)) ⨾
  assign (set_vkeys (seq 0 (length (rgb_matrix_layout doc)))) ⨾
  assign (λ v, set_loop (set_vkeynames [] (v_loop v)) v) ⨾
  assign (λ v, set_loop (set_vkeypositions [] (v_loop v)) v) ⨾
  assign (λ v, set_loop (set_unnamed 0 (v_loop v)) v) ⨾
  assign (λ v, set_loop (set_matxs ∅ (v_loop v)) v) ⨾
  assign (λ v, set_loop (set_matys ∅ (v_loop v)) v) ⨾
  for_in (led_stmts doc) (rgb_matrix_layout doc).

(** One file: the variables it leaves behind, and its tables or the
    exception the [except] clause reports. *)
Definition run_file (doc : Doc) (v : Vars) : Vars * result Tables :=
  match file_stmts doc v with
  | (v', None) =>
      (v', Ok {| width := length (v_xs v'); height := length (v_ys v');
                 ledIndices := v_vkeys v';
                 ledNames := vkeynames (v_loop v');
                 ledPositions := vkeypositions (v_loop v') |})
  | (v', Some e) => (v', Raise e)
  end.

(** The files of a batch, one after the other in the same variables. *)
Fixpoint run_batch (docs : list Doc) (v : Vars) : list (result Tables) :=
  match docs with
  | [] => []
  | doc :: docs' =>
      let '(v', r) := run_file doc v in r :: run_batch docs' v'
  end.
End script.

Section script_facts.
Context `{PySet}.
Variable ucd : N → option str.
Variable matrix_sizing : bool.

Ltac vars_cbn :=
  cbn [v_xs v_ys v_vkeys v_loop v_lbl v_ledx v_ledy v_key set_lbl set_ledx set_ledy
       set_key set_loop set_unnamed set_matxs set_matys set_vkeynames
       set_vkeypositions unnamed matxs matys vkeynames vkeypositions fst snd
       default from_option id negb] in *.

Ltac label_cases :=
  repeat first
    [ progress vars_cbn
    | case_bool_decide; try discriminate; try congruence
    | match goal with
      | |- context [if contains ?c ?s then _ else _] => destruct (contains c s)
      end ];
  done.

(** One pass of the statements of lines 390-411 is [led_step] on the loop's
    state, whatever the loop's own variables held before; the axis lists and
    [vkeys] are left alone. *)
Lemma led_stmts_step doc led v :
  let r := led_stmts ucd matrix_sizing doc led v in
  v_xs r.1 = v_xs v ∧ v_ys r.1 = v_ys v ∧ v_vkeys r.1 = v_vkeys v ∧
  match r.2 with
  | None =>
      led_step ucd matrix_sizing doc (v_xs v) (v_ys v) (v_loop v) led
      = Ok (v_loop r.1)
  | Some e =>
      led_step ucd matrix_sizing doc (v_xs v) (v_ys v) (v_loop v) led = Raise e
  end.
Proof.
  destruct v as [X Y K [n mx my names poss] lbl0 x0 y0 k0].
  unfold led_stmts, led_step, then_, assign, assign_from, when, lookup_label,
    sanitize, setdefault, bind.
  vars_cbn.
  destruct (index (sel_x matrix_sizing led) X) as [ix|e]; [|done].
  vars_cbn.
  destruct (index (sel_y matrix_sizing led) Y) as [iy|e]; [|done].
  vars_cbn.
  destruct (led_matrix led) as [m|], (layouts doc) as [meta|]; vars_cbn;
    try done.
  destruct matrix_sizing; vars_cbn;
    [destruct (mx !! m.1) as [wx|]; vars_cbn;
     (destruct (my !! m.2) as [wy|]; vars_cbn)|];
    (destruct (key meta m) as [k|]; vars_cbn; [|label_cases]);
    (destruct (key_label k) as [l|]; vars_cbn; [|label_cases]);
    (destruct (isascii l); vars_cbn;
       [|destruct (unicodedata_name ucd l) as [a|e]; vars_cbn; [|done]]);
    label_cases.
Qed.

Lemma for_in_led_stmts doc l v :
  let r := for_in (led_stmts ucd matrix_sizing doc) l v in
  v_xs r.1 = v_xs v ∧ v_ys r.1 = v_ys v ∧ v_vkeys r.1 = v_vkeys v ∧
  match r.2 with
  | None =>
      for_each (led_step ucd matrix_sizing doc (v_xs v) (v_ys v)) (v_loop v) l
      = Ok (v_loop r.1)
  | Some e =>
      for_each (led_step ucd matrix_sizing doc (v_xs v) (v_ys v)) (v_loop v) l
      = Raise e
  end.
Proof.
  revert v. induction l as [|led l IH]; intros v; [done|].
  cbn [for_in for_each]. unfold then_, bind.
  pose proof (led_stmts_step doc led v) as Hstep. cbv zeta in Hstep.
  destruct (led_stmts ucd matrix_sizing doc led v) as [v1 [e|]];
    cbn [fst snd] in *; destruct Hstep as (Hx & Hy & Hk & ->); [done|].
  specialize (IH v1). cbv zeta in IH. rewrite Hx, Hy, Hk in IH. exact IH.
Qed.

(** A file's outcome does not depend on the variables it starts in. *)
Lemma run_file_transform doc v :
  (run_file ucd matrix_sizing doc v).2 = transform ucd matrix_sizing doc.
Proof.
  unfold run_file, file_stmts, transform, run_loop.
  unfold then_ at 1 2 3 4 5 6 7 8. unfold assign.
  set (v0 := set_loop _ _).
  pose proof (for_in_led_stmts doc (rgb_matrix_layout doc) v0) as Hloop.
  cbv zeta in Hloop.
  destruct (for_in _ _ v0) as [v1 [e|]]; cbn [fst snd] in *;
    destruct Hloop as (Hx & Hy & Hk & Hloop);
    change (v_xs v0) with (xs matrix_sizing doc) in *;
    change (v_ys v0) with (ys matrix_sizing doc) in *;
    change (v_vkeys v0) with (seq 0 (length (rgb_matrix_layout doc))) in *;
    change (v_loop v0) with loop_init in *;
    rewrite Hloop; [done|].
  cbn [bind]. by rewrite Hx, Hy, Hk.
Qed.

Lemma run_batch_transform docs v :
  run_batch ucd matrix_sizing docs v = transform ucd matrix_sizing <$> docs.
Proof.
  revert v. induction docs as [|doc docs IH]; intros v; [done|].
  cbn [run_batch fmap list_fmap].
  pose proof (run_file_transform doc v) as Hfile.
  destruct (run_file ucd matrix_sizing doc v) as [v' r]; cbn [snd] in Hfile.
  by rewrite Hfile, IH.
Qed.
End script_facts.

(** C8: two runs on the same input give the same width, height, indices,
    names and positions. Whatever the variables of the script hold when a file is
    begun, be it the values a run over another file or over the same file
    left behind, the file's outcome is the one of [transform]: the same
    tables, or the same exception. A batch that lists a file twice gets the
    same outcome twice, and so do two runs started in different variables.
    This holds for every implementation of the built-in set, the order in
    which it lists integers being a function of the integers put in. *)
Theorem two_runs_same_tables `{PySet} (ucd : N → option str)
    (matrix_sizing : bool) (doc : Doc) :
  (∀ v, (run_file ucd matrix_sizing doc v).2 = transform ucd matrix_sizing doc) ∧
  (∀ v1 v2, (run_file ucd matrix_sizing doc v1).2
            = (run_file ucd matrix_sizing doc v2).2) ∧
  (∀ v, run_batch ucd matrix_sizing [doc; doc] v
        = [transform ucd matrix_sizing doc; transform ucd matrix_sizing doc]) ∧
  (∀ v docs other,
     run_batch ucd matrix_sizing (docs ++ [doc] ++ other ++ [doc]) v
     !! length docs
     = run_batch ucd matrix_sizing (docs ++ [doc] ++ other ++ [doc]) v
       !! (length docs + S (length other))%nat) ∧
  (∀ v t1 t2,
     run_batch ucd matrix_sizing [doc; doc] v = [Ok t1; Ok t2] →
     width t1 = width t2 ∧ height t1 = height t2 ∧
     ledIndices t1 = ledIndices t2 ∧ ledNames t1 = ledNames t2 ∧
     ledPositions t1 = ledPositions t2).
Proof.
  split_and!.
  - apply run_file_transform.
  - intros v1 v2. by rewrite !run_file_transform.
  - intros v. by rewrite run_batch_transform.
  - intros v docs other. rewrite run_batch_transform, !list_lookup_fmap.
    change (docs ++ [doc] ++ other ++ [doc])
      with (docs ++ doc :: other ++ [doc]).
    rewrite (list_lookup_middle docs _ doc) by done.
    replace (docs ++ doc :: other ++ [doc])
      with ((docs ++ doc :: other) ++ [doc]) by by rewrite <- app_assoc.
    rewrite (list_lookup_middle (docs ++ doc :: other) [] doc); [done|].
    rewrite length_app. cbn [length]. lia.
  - intros v t1 t2. rewrite run_batch_transform. cbn [fmap list_fmap].
    intros Heq. injection Heq as H1 H2. rewrite H1 in H2. by simplify_eq.
Qed.

(** A file listed twice, begun in variables that another file left behind. *)
Lemma two_runs_same_tables_doc_matrix :
  let v := {| v_xs := [5]; v_ys := []; v_vkeys := [7]%nat;
              v_loop := {| unnamed := 4; matxs := {[0 := 9%nat]}; matys := ∅;
                           vkeynames := [lit "Esc"];
                           vkeypositions := [(3, 3)]%nat |};
              v_lbl := Some (lit "Esc"); v_ledx := 3; v_ledy := 3;
              v_key := None |} in
  let t := {| width := 3; height := 2; ledIndices := [0; 1; 2; 3]%nat;
              ledNames := [lit "Esc"; lit "F1"; lit "Q"; lit "W"];
              ledPositions := [(0, 0); (0, 0); (1, 0); (1, 1)]%nat |} in
  run_batch (H:=cpython_set) ucd_excerpt true [doc_matrix; doc_matrix] v
  = [Ok t; Ok t].
Proof.
  intros v t.
  destruct (@two_runs_same_tables cpython_set ucd_excerpt true doc_matrix)
    as (_ & _ & Hbatch & _).
  rewrite Hbatch. vm_compute. reflexivity.
Defined.

(** ** What the two memos do *)

Lemma setdefault_spec (d d' : gmap Z nat) k v r :
  setdefault d k v = (r, d') →
  d' !! k = Some r ∧ (∀ k' w, d !! k' = Some w → d' !! k' = Some w).
Proof.
  unfold setdefault. destruct (d !! k) as [w|] eqn:Hk; intros [= <- <-].
  - done.
  - split; [apply lookup_insert_eq|].
    intros k' w Hk'. rewrite lookup_insert_ne; [done|]. congruence.
Qed.

Section memos.
Context `{PySet}.
Variable ucd : N → option str.
Variables (ms : bool) (doc : Doc).

(** Every LED that went through the memos has its gridX stored under its
    matrix row in [matxs] and its gridY under its matrix column in
    [matys]. *)
Definition memoised (pre : list Led) (st : Loop) : Prop :=
  length (vkeypositions st) = length pre ∧
  ∀ j led p m, pre !! j = Some led → vkeypositions st !! j = Some p →
    memo_key ms doc led = Some m →
    matxs st !! m.1 = Some p.1 ∧ matys st !! m.2 = Some p.2.

Lemma led_step_memoised xs ys pre st led st' :
  memoised pre st → led_step ucd ms doc xs ys st led = Ok st' →
  memoised (pre ++ [led]) st'.
Proof.
  intros [Hlen Hmemo]
    (ledx & ledy & name & gx & gy & _ & _ & _ & _ & Hpos & Hps)%led_step_Ok.
  split; [rewrite Hps, !length_app; simpl; lia|].
  assert ((∀ k w, matxs st !! k = Some w → matxs st' !! k = Some w) ∧
          (∀ k w, matys st !! k = Some w → matys st' !! k = Some w) ∧
          (∀ m, memo_key ms doc led = Some m →
                matxs st' !! m.1 = Some gx ∧ matys st' !! m.2 = Some gy))
    as (Hkx & Hky & Hnew).
  { unfold resolve_pos in Hpos. destruct (memo_key ms doc led) as [m|].
    - injection Hpos as Hx Hy.
      apply setdefault_spec in Hx as [Hx1 Hx2]. apply setdefault_spec in Hy as [Hy1 Hy2].
      split_and!; [done..|]. by intros ? [= <-].
    - injection Hpos as <- <- <- <-. done. }
  intros j led' p m Hj Hp Hm. rewrite Hps in Hp.
  destruct (decide (j < length pre)%nat) as [Hlt|Hge].
  - rewrite lookup_app_l in Hj by done. rewrite lookup_app_l in Hp by lia.
    destruct (Hmemo j led' p m Hj Hp Hm). split; [by apply Hkx | by apply Hky].
  - assert (j = length pre) as ->.
    { apply lookup_lt_Some in Hj. rewrite length_app in Hj. simpl in Hj. lia. }
    rewrite list_lookup_middle in Hj by done. injection Hj as <-.
    rewrite list_lookup_middle in Hp by done. injection Hp as <-.
    by apply Hnew.
Qed.

Lemma run_loop_memoised st :
  run_loop ucd ms doc = Ok st → memoised (rgb_matrix_layout doc) st.
Proof.
  unfold run_loop. apply (for_each_prefix memoised).
  - split; [done|]. intros j led p m Hj. by rewrite lookup_nil in Hj.
  - intros pre a s1 s2. apply led_step_memoised.
Qed.

(** The collapse the code performs: of two LEDs that go through the memos,
    those with the same matrix row get the same gridX and those with the
    same matrix column get the same gridY. *)
Lemma memo_law t i j li lj mi mj pi pj :
  transform ucd ms doc = Ok t →
  rgb_matrix_layout doc !! i = Some li → rgb_matrix_layout doc !! j = Some lj →
  memo_key ms doc li = Some mi → memo_key ms doc lj = Some mj →
  ledPositions t !! i = Some pi → ledPositions t !! j = Some pj →
  (mi.1 = mj.1 → pi.1 = pj.1) ∧ (mi.2 = mj.2 → pi.2 = pj.2).
Proof.
  unfold transform. destruct (run_loop ucd ms doc) as [st|] eqn:Hst; simpl; [|done].
  intros [= <-] Hi Hj Hmi Hmj Hpi Hpj. simpl in *.
  apply run_loop_memoised in Hst as [_ Hmemo].
  destruct (Hmemo i li pi mi Hi Hpi Hmi) as [Hxi Hyi].
  destruct (Hmemo j lj pj mj Hj Hpj Hmj) as [Hxj Hyj].
  split; intros Heq; rewrite Heq in *; congruence.
Qed.
End memos.

(** ** The theorems at sample documents *)

Lemma positions_in_grid_doc_matrix :
  let t := {| width := 3; height := 2; ledIndices := [0; 1; 2; 3]%nat;
              ledNames := [lit "Esc"; lit "F1"; lit "Q"; lit "W"];
              ledPositions := [(0, 0); (0, 0); (1, 0); (1, 1)]%nat |} in
  @transform cpython_set ucd_excerpt true doc_matrix = Ok t ∧
  Forall (λ p, (0 ≤ p.1 < width t)%nat ∧ (0 ≤ p.2 < height t)%nat) (ledPositions t).
Proof.
  intros t. split; [vm_compute; reflexivity|].
  destruct (@positions_in_grid cpython_set ucd_excerpt true doc_matrix)
    as (_ & _ & Hpos).
  apply (Hpos t). vm_compute. reflexivity.
Defined.

Lemma fallback_names_sequential_doc_empty_label :
  let t := {| width := 3; height := 1; ledIndices := [0; 1; 2]%nat;
              ledNames := [lit "Light 1"; []; lit "Light 2"];
              ledPositions := [(0, 0); (1, 0); (2, 0)]%nat |} in
  @transform cpython_set ucd_excerpt false doc_empty_label = Ok t ∧
  fallback_names doc_empty_label (rgb_matrix_layout doc_empty_label) (ledNames t) =
    [lit "Light 1"; lit "Light 2"] ∧
  length (ledNames t) = 3%nat ∧
  unlabelled_before doc_empty_label (rgb_matrix_layout doc_empty_label) 2 = 1%nat ∧
  ledNames t !! 2%nat = Some (lit "Light 2") ∧
  NoDup (fallback_names doc_empty_label (rgb_matrix_layout doc_empty_label) (ledNames t)).
Proof.
  intros t.
  assert (Ht : @transform cpython_set ucd_excerpt false doc_empty_label = Ok t)
    by (vm_compute; reflexivity).
  destruct (@fallback_names_sequential cpython_set ucd_excerpt false
              doc_empty_label t Ht) as (Hlen & _ & Hidx & _ & _ & Hnd).
  split_and!.
  - exact Ht.
  - vm_compute. reflexivity.
  - exact Hlen.
  - vm_compute. reflexivity.
  - etrans; [exact (Hidx 2%nat (led 20 0) eq_refl eq_refl)|]. vm_compute. reflexivity.
  - exact Hnd.
Defined.

Lemma first_matching_entry_wins_doc_two_entries :
  key [labelled 0 0 "Esc"; labelled 1 2 "A"; labelled 1 2 "B"] (1, 2) =
    Some (labelled 1 2 "A") ∧
  candidate doc_two_entries (mled 0 0 1 2) = Some (lit "A").
Proof.
  pose proof (@first_matching_entry_wins cpython_set ucd_excerpt true doc_two_entries
    [labelled 0 0 "Esc"] [labelled 1 2 "B"] (labelled 1 2 "A") (mled 0 0 1 2) (1, 2))
    as Hfirst.
  destruct Hfirst as (Hkey & Hcand & _).
  - reflexivity.
  - reflexivity.
  - repeat constructor. vm_compute. discriminate.
  - reflexivity.
  - split; [exact Hkey | exact Hcand].
Defined.

Lemma empty_label_is_kept_doc_empty_label :
  candidate doc_empty_label (mled 10 0 0 1) = Some [] ∧
  resolve_name ucd_excerpt doc_empty_label 1 (mled 10 0 0 1) = Ok (1%nat, []) ∧
  (candidate doc_empty_label (led 20 0) = None ↔ no_label doc_empty_label (led 20 0)).
Proof.
  destruct (@empty_label_is_kept cpython_set ucd_excerpt false doc_empty_label)
    as (Hempty & Hnone & _).
  split; [reflexivity|]. split.
  - apply (Hempty (mled 10 0 0 1)). reflexivity.
  - apply Hnone.
Defined.

(** A label of five characters, as code points: a, backslash, b, double
    quote, c. *)
Definition label_sample : str := [97; 92; 98; 34; 99]%N.

Lemma escaping_law_sample :
  isascii label_sample = true ∧
  sanitize ucd_excerpt label_sample = Ok [97; 92; 92; 98; 92; 34; 99]%N ∧
  unescape [97; 92; 92; 98; 92; 34; 99]%N = label_sample.
Proof.
  split; [reflexivity|].
  destruct (escaping_law ucd_excerpt label_sample) as (Hs & _ & _ & Hu & _).
  - reflexivity.
  - split; [exact Hs | exact Hu].
Defined.

(** * More of the transform *)

(** ** The shape of the tables *)

(** One index, one name and one position per LED, the indices counting up
    from 0. *)
Theorem tables_shape `{PySet} (ucd : N → option str) (ms : bool) (doc : Doc)
    (t : Tables) :
  transform ucd ms doc = Ok t →
  length (ledIndices t) = length (rgb_matrix_layout doc) ∧
  length (ledNames t) = length (rgb_matrix_layout doc) ∧
  length (ledPositions t) = length (rgb_matrix_layout doc) ∧
  (∀ i, (i < length (rgb_matrix_layout doc))%nat → ledIndices t !! i = Some i).
Proof.
  unfold transform. destruct (run_loop ucd ms doc) as [st|] eqn:Hst; simpl; [|done].
  intros [= <-]. simpl. apply run_loop_in_grid in Hst as (_ & Hp & Hn).
  split_and!; [by rewrite length_seq | done | done |].
  intros i Hi. by rewrite lookup_seq_lt.
Qed.

Lemma tables_shape_doc_matrix :
  let t := {| width := 3; height := 2; ledIndices := [0; 1; 2; 3]%nat;
              ledNames := [lit "Esc"; lit "F1"; lit "Q"; lit "W"];
              ledPositions := [(0, 0); (0, 0); (1, 0); (1, 1)]%nat |} in
  length (ledNames t) = 4%nat ∧ length (ledPositions t) = 4%nat.
Proof.
  intros t.
  destruct (@tables_shape cpython_set ucd_excerpt true doc_matrix t) as (_ & Hn & Hp & _).
  - vm_compute. reflexivity.
  - split; [exact Hn | exact Hp].
Defined.

(** ** The size of the grid *)

Lemma remove_dups_length_le (l : list Z) : (length (remove_dups l) ≤ length l)%nat.
Proof.
  apply submseteq_length, NoDup_submseteq; [apply NoDup_remove_dups|].
  intros v. by rewrite elem_of_remove_dups.
Qed.

Lemma remove_dups_nonempty (l : list Z) : l ≠ [] → (0 < length (remove_dups l))%nat.
Proof.
  destruct l as [|v l]; [done|]. intros _.
  assert (v ∈ remove_dups (v :: l)) as Hv by (apply elem_of_remove_dups; by left).
  destruct (remove_dups (v :: l)); [by apply elem_of_nil in Hv | simpl; lia].
Qed.

(** The width is the number of distinct selected X values and the height
    the number of distinct selected Y values, whatever order the set
    iterates in: neither exceeds the number of LEDs, and neither is 0 once
    there is a LED. *)
Theorem grid_size `{PySet} (ucd : N → option str) (ms : bool) (doc : Doc)
    (t : Tables) :
  transform ucd ms doc = Ok t →
  width t = length (remove_dups (sel_x ms <$> rgb_matrix_layout doc)) ∧
  height t = length (remove_dups (sel_y ms <$> rgb_matrix_layout doc)) ∧
  (width t ≤ length (rgb_matrix_layout doc))%nat ∧
  (height t ≤ length (rgb_matrix_layout doc))%nat ∧
  (rgb_matrix_layout doc ≠ [] → (0 < width t)%nat ∧ (0 < height t)%nat).
Proof.
  unfold transform. destruct (run_loop ucd ms doc) as [st|] eqn:Hst; simpl; [|done].
  intros [= <-]. simpl. rewrite xs_length, ys_length.
  pose proof (remove_dups_length_le (sel_x ms <$> rgb_matrix_layout doc)) as Hx.
  pose proof (remove_dups_length_le (sel_y ms <$> rgb_matrix_layout doc)) as Hy.
  rewrite length_fmap in Hx, Hy. split_and!; [done..|].
  intros Hne. split; apply remove_dups_nonempty;
    by destruct (rgb_matrix_layout doc).
Qed.

Lemma grid_size_doc_five_rows :
  let t := {| width := 1; height := 5; ledIndices := [0; 1; 2; 3; 4]%nat;
              ledNames := light <$> [1; 2; 3; 4; 5]%nat;
              ledPositions := [(0, 0); (0, 3); (0, 1); (0, 4); (0, 2)]%nat |} in
  width t = length (remove_dups (sel_x false <$> rgb_matrix_layout doc_five_rows)) ∧
  height t = length (remove_dups (sel_y false <$> rgb_matrix_layout doc_five_rows)).
Proof.
  intros t.
  destruct (@grid_size cpython_set ucd_excerpt false doc_five_rows t) as (Hw & Hh & _).
  - vm_compute. reflexivity.
  - split; [exact Hw | exact Hh].
Defined.

(** ** Positions outside the memos *)

(** A LED goes past the memos unless matrix sizing is on, the LED has a
    matrix attribute and the document has layouts. *)
Lemma memo_key_None ms doc led :
  ms = false ∨ led_matrix led = None ∨ layouts doc = None →
  memo_key ms doc led = None.
Proof.
  unfold memo_key. intros [-> | [-> | ->]]; [|done|];
    by destruct (led_matrix led), (layouts doc).
Qed.

Section direct.
Context `{PySet}.
Variable ucd : N → option str.
Variables (ms : bool) (doc : Doc).

(** The position of a LED that went past the memos is the pair of its two
    ranks. *)
Definition ranked (led : Led) (p : nat * nat) : Prop :=
  memo_key ms doc led = None →
  index (sel_x ms led) (xs ms doc) = Ok p.1 ∧
  index (sel_y ms led) (ys ms doc) = Ok p.2.

Lemma run_loop_ranked st :
  run_loop ucd ms doc = Ok st →
  Forall2 ranked (rgb_matrix_layout doc) (vkeypositions st).
Proof.
  unfold run_loop.
  apply (for_each_prefix (λ pre st, Forall2 ranked pre (vkeypositions st)));
    [constructor|].
  intros pre a s1 s2 Hpre
    (ledx & ledy & name & gx & gy & Hx & Hy & _ & _ & Hpos & ->)%led_step_Ok.
  apply Forall2_app; [done|]. constructor; [|constructor].
  intros Hmemo. simpl. unfold resolve_pos in Hpos. rewrite Hmemo in Hpos.
  injection Hpos as Hgx _ Hgy _. by rewrite <-Hgx, <-Hgy.
Qed.

Lemma transform_ranked t i led :
  transform ucd ms doc = Ok t → rgb_matrix_layout doc !! i = Some led →
  ∃ p, ledPositions t !! i = Some p ∧ ranked led p.
Proof.
  unfold transform. destruct (run_loop ucd ms doc) as [st|] eqn:Hst; simpl; [|done].
  intros [= <-] Hi. simpl. apply run_loop_ranked in Hst.
  destruct (Forall2_lookup_l _ _ _ _ _ Hst Hi) as (p & ? & ?). eauto.
Qed.
End direct.

(** Outside matrix sizing, and for a LED without a matrix attribute or a
    document without layouts, the position of a LED leads back to its
    coordinates: its gridX is the place of its X value on the X axis list
    and its gridY the place of its Y value on the Y axis list. *)
Theorem position_leads_back `{PySet} (ucd : N → option str) (ms : bool) (doc : Doc)
    (t : Tables) (i : nat) (led : Led) :
  transform ucd ms doc = Ok t →
  rgb_matrix_layout doc !! i = Some led →
  ms = false ∨ led_matrix led = None ∨ layouts doc = None →
  ∃ gx gy, ledPositions t !! i = Some (gx, gy) ∧
           xs ms doc !! gx = Some (sel_x ms led) ∧
           ys ms doc !! gy = Some (sel_y ms led).
Proof.
  intros Ht Hi Hmemo%(memo_key_None ms doc led).
  destruct (transform_ranked ucd ms doc t i led Ht Hi) as ([gx gy] & Hp & Hr).
  destruct (Hr Hmemo) as [Hx%index_Ok Hy%index_Ok]. exists gx, gy.
  split_and!; [done | apply Hx | apply Hy].
Qed.

Lemma position_leads_back_doc_five_rows :
  ∃ gx gy, [(0, 0); (0, 3); (0, 1); (0, 4); (0, 2)]%nat !! 3%nat = Some (gx, gy) ∧
           @xs cpython_set false doc_five_rows !! gx = Some 0 ∧
           @ys cpython_set false doc_five_rows !! gy = Some 48.
Proof.
  apply (@position_leads_back cpython_set ucd_excerpt false doc_five_rows
    {| width := 1; height := 5; ledIndices := [0; 1; 2; 3; 4]%nat;
       ledNames := light <$> [1; 2; 3; 4; 5]%nat;
       ledPositions := [(0, 0); (0, 3); (0, 1); (0, 4); (0, 2)]%nat |}
    3%nat (led 0 48)).
  - vm_compute. reflexivity.
  - reflexivity.
  - left. reflexivity.
Defined.

(** Outside matrix sizing two LEDs are in the same grid column exactly when
    they have the same X value, and in the same grid row exactly when they
    have the same Y value: LEDs at different coordinates never share a
    position. *)
Theorem positions_separate `{PySet} (ucd : N → option str) (doc : Doc) (t : Tables)
    (i j : nat) (li lj : Led) (pi pj : nat * nat) :
  transform ucd false doc = Ok t →
  rgb_matrix_layout doc !! i = Some li → rgb_matrix_layout doc !! j = Some lj →
  ledPositions t !! i = Some pi → ledPositions t !! j = Some pj →
  (pi.1 = pj.1 ↔ led_x li = led_x lj) ∧
  (pi.2 = pj.2 ↔ led_y li = led_y lj) ∧
  (pi = pj ↔ led_x li = led_x lj ∧ led_y li = led_y lj).
Proof.
  intros Ht Hi Hj Hpi Hpj.
  destruct (transform_ranked ucd false doc t i li Ht Hi) as (pi' & Hpi' & Hri).
  destruct (transform_ranked ucd false doc t j lj Ht Hj) as (pj' & Hpj' & Hrj).
  assert (pi' = pi) as -> by congruence. assert (pj' = pj) as -> by congruence.
  destruct (Hri (memo_key_None false doc li (or_introl eq_refl))) as [Hxi Hyi].
  destruct (Hrj (memo_key_None false doc lj (or_introl eq_refl))) as [Hxj Hyj].
  assert (sel_x false li = led_x li ∧ sel_x false lj = led_x lj ∧
          sel_y false li = led_y li ∧ sel_y false lj = led_y lj) as (Ex1 & Ex2 & Ey1 & Ey2).
  { unfold sel_x, sel_y. by destruct (led_matrix li), (led_matrix lj). }
  rewrite Ex1 in Hxi. rewrite Ex2 in Hxj. rewrite Ey1 in Hyi. rewrite Ey2 in Hyj.
  assert (pi.1 = pj.1 ↔ led_x li = led_x lj) as Hx.
  { split.
    - intros Heq. apply index_Ok in Hxi as [Hxi _]. apply index_Ok in Hxj as [Hxj _].
      rewrite Heq in Hxi. congruence.
    - intros Heq. rewrite Heq in Hxi. congruence. }
  assert (pi.2 = pj.2 ↔ led_y li = led_y lj) as Hy.
  { split.
    - intros Heq. apply index_Ok in Hyi as [Hyi _]. apply index_Ok in Hyj as [Hyj _].
      rewrite Heq in Hyi. congruence.
    - intros Heq. rewrite Heq in Hyi. congruence. }
  split_and!; [done..|]. destruct pi, pj. simpl in *. split.
  - intros [= -> ->]. split; [by apply Hx | by apply Hy].
  - intros [Hxe Hye]. f_equal; [by apply Hx | by apply Hy].
Qed.

Lemma positions_separate_doc_two_columns :
  (1%nat = 0%nat ↔ 1 = 8) ∧ (0%nat = 0%nat ↔ 0 = 0).
Proof.
  destruct (@positions_separate cpython_set ucd_excerpt doc_two_columns
    {| width := 2; height := 1; ledIndices := [0; 1]%nat;
       ledNames := [lit "Light 1"; lit "Light 2"];
       ledPositions := [(1, 0); (0, 0)]%nat |}
    0%nat 1%nat (led 1 0) (led 8 0) (1, 0)%nat (0, 0)%nat) as (Hx & Hy & _).
  - vm_compute. reflexivity.
  - reflexivity.
  - reflexivity.
  - reflexivity.
  - reflexivity.
  - split; [exact Hx | exact Hy].
Defined.

(** ** Positions through the memos *)

(** The place of [v] in [l], 0 when it has none. *)
Definition rank (v : Z) (l : list Z) : nat :=
  match index v l with
  | Ok i => i
  | Raise _ => 0%nat
  end.

(** The first LED of [leds] that goes through the memos with matrix row
    [r], and the first with matrix column [c]. *)
Definition first_of_row (ms : bool) (doc : Doc) (r : Z) (leds : list Led) : option Led :=
  find (λ led, bool_decide (fst <$> memo_key ms doc led = Some r)) leds.

Definition first_of_col (ms : bool) (doc : Doc) (c : Z) (leds : list Led) : option Led :=
  find (λ led, bool_decide (snd <$> memo_key ms doc led = Some c)) leds.

Lemma find_snoc {A} (f : A → bool) l a :
  find f (l ++ [a]) =
    match find f l with
    | Some x => Some x
    | None => if f a then Some a else None
    end.
Proof. induction l as [|b l IH]; simpl; [done|]. by destruct (f b). Qed.

Lemma find_same {A} (f g : A → bool) l : (∀ x, f x = g x) → find f l = find g l.
Proof. intros Hfg. induction l as [|a l IH]; simpl; [done|]. by rewrite Hfg, IH. Qed.

Lemma setdefault_lookup (d d' : gmap Z nat) k v r k' :
  setdefault d k v = (r, d') →
  d' !! k' = match d !! k' with
             | Some w => Some w
             | None => if decide (k = k') then Some v else None
             end.
Proof.
  unfold setdefault. destruct (d !! k) as [w|] eqn:Hk; intros [= <- <-].
  - destruct (d !! k') eqn:Hk'; [done|]. case_decide; [congruence | done].
  - rewrite lookup_insert. case_decide as Hkk.
    + subst k'. by rewrite Hk.
    + by destruct (d !! k').
Qed.

Section first_wins.
Context `{PySet}.
Variable ucd : N → option str.
Variables (ms : bool) (doc : Doc).

(** [matxs] holds, under each matrix row, the X rank of the first LED that
    came through with that row; [matys] holds, under each matrix column, the
    Y rank of the first LED that came through with that column. *)
Definition first_ranks (xs ys : list Z) (pre : list Led) (st : Loop) : Prop :=
  (∀ r, matxs st !! r =
          (λ led, rank (sel_x ms led) xs) <$> first_of_row ms doc r pre) ∧
  (∀ c, matys st !! c =
          (λ led, rank (sel_y ms led) ys) <$> first_of_col ms doc c pre).

Lemma led_step_first_ranks xs ys pre st led st' :
  first_ranks xs ys pre st → led_step ucd ms doc xs ys st led = Ok st' →
  first_ranks xs ys (pre ++ [led]) st'.
Proof.
  intros [Hrow Hcol]
    (ledx & ledy & name & gx & gy & Hx & Hy & _ & _ & Hpos & _)%led_step_Ok.
  unfold resolve_pos in Hpos. unfold first_ranks, first_of_row, first_of_col in *.
  assert (rank (sel_x ms led) xs = ledx) as Hrx by (unfold rank; by rewrite Hx).
  assert (rank (sel_y ms led) ys = ledy) as Hry by (unfold rank; by rewrite Hy).
  destruct (memo_key ms doc led) as [m|] eqn:Hm.
  - injection Hpos as Hsx Hsy. split.
    + intros r. rewrite (setdefault_lookup _ _ _ _ _ r Hsx), Hrow, find_snoc, Hm.
      destruct (find _ pre) as [l0|]; simpl; [done|].
      case_decide as Hr.
      * rewrite bool_decide_eq_true_2 by (by rewrite Hr). simpl. by rewrite Hrx.
      * rewrite bool_decide_eq_false_2; [done|]. simpl. congruence.
    + intros c. rewrite (setdefault_lookup _ _ _ _ _ c Hsy), Hcol, find_snoc, Hm.
      destruct (find _ pre) as [l0|]; simpl; [done|].
      case_decide as Hc.
      * rewrite bool_decide_eq_true_2 by (by rewrite Hc). simpl. by rewrite Hry.
      * rewrite bool_decide_eq_false_2; [done|]. simpl. congruence.
  - injection Hpos as _ <- _ <-. split.
    + intros r. rewrite Hrow, find_snoc, Hm. simpl. by destruct (find _ pre).
    + intros c. rewrite Hcol, find_snoc, Hm. simpl. by destruct (find _ pre).
Qed.

Lemma run_loop_first_ranks st :
  run_loop ucd ms doc = Ok st →
  first_ranks (xs ms doc) (ys ms doc) (rgb_matrix_layout doc) st.
Proof.
  unfold run_loop. apply (for_each_prefix (first_ranks (xs ms doc) (ys ms doc))).
  - split; intros k; simpl; by rewrite lookup_empty.
  - intros pre a s1 s2. apply led_step_first_ranks.
Qed.
End first_wins.

(** In matrix-sizing mode, with layouts in the document, a LED with the
    matrix pair (r, c) is placed by the first LEDs of the layout that have
    a matrix attribute with row r, respectively with column c: its gridX is
    the place on the X axis list of the matrix column of the first LED with
    row r, and its gridY the place on the Y axis list of the matrix row of
    the first LED with column c. *)
Theorem memo_first_wins `{PySet} (ucd : N → option str) (doc : Doc) (t : Tables)
    (meta : list KeyMeta) (j : nat) (led : Led) (r c : Z) (p : nat * nat) :
  transform ucd true doc = Ok t →
  layouts doc = Some meta →
  rgb_matrix_layout doc !! j = Some led →
  led_matrix led = Some (r, c) →
  ledPositions t !! j = Some p →
  ∃ lr lc r' c',
    find (λ l, bool_decide (fst <$> led_matrix l = Some r)) (rgb_matrix_layout doc)
      = Some lr ∧
    find (λ l, bool_decide (snd <$> led_matrix l = Some c)) (rgb_matrix_layout doc)
      = Some lc ∧
    led_matrix lr = Some (r, c') ∧ led_matrix lc = Some (r', c) ∧
    xs true doc !! p.1 = Some c' ∧ ys true doc !! p.2 = Some r'.
Proof.
  intros Ht Hmeta Hj Hled Hp.
  assert (∀ l, memo_key true doc l = led_matrix l) as Hkey.
  { intros l. unfold memo_key. rewrite Hmeta. by destruct (led_matrix l). }
  unfold transform in Ht.
  destruct (run_loop ucd true doc) as [st|] eqn:Hst; simpl in Ht; [|done].
  injection Ht as <-. simpl in Hp.
  pose proof (run_loop_memoised ucd true doc st Hst) as [_ Hmemo].
  destruct (Hmemo j led p (r, c) Hj Hp) as [Hmx Hmy]; [by rewrite Hkey|].
  destruct (run_loop_first_ranks ucd true doc st Hst) as [Hrow Hcol].
  specialize (Hrow r). specialize (Hcol c). simpl in Hmx, Hmy.
  rewrite Hmx in Hrow. rewrite Hmy in Hcol. unfold first_of_row in Hrow.
  unfold first_of_col in Hcol.
  rewrite (find_same _ (λ l, bool_decide (fst <$> led_matrix l = Some r))) in Hrow
    by (intros l; by rewrite Hkey).
  rewrite (find_same _ (λ l, bool_decide (snd <$> led_matrix l = Some c))) in Hcol
    by (intros l; by rewrite Hkey).
  destruct (find _ (rgb_matrix_layout doc)) as [lr|] eqn:Hlr; [|done].
  destruct (find (λ l, bool_decide (snd <$> led_matrix l = Some c)) _)
    as [lc|] eqn:Hlc; [|done].
  simpl in Hrow, Hcol. injection Hrow as Hrow. injection Hcol as Hcol.
  apply find_some in Hlr as Hlr'. destruct Hlr' as [Hinr Hr%bool_decide_eq_true].
  apply find_some in Hlc as Hlc'. destruct Hlc' as [Hinc Hc%bool_decide_eq_true].
  apply list_elem_of_In in Hinr, Hinc.
  destruct (led_matrix lr) as [[r1 c']|] eqn:Hmr; [|done].
  destruct (led_matrix lc) as [[r' c1]|] eqn:Hmc; [|done].
  simpl in Hr, Hc. injection Hr as ->. injection Hc as ->.
  exists lr, lc, r', c'. split_and!; [done..| |].
  - destruct (lookup_total true doc lr Hinr) as [[gx Hgx] _].
    unfold rank in Hrow. rewrite Hgx in Hrow. subst gx.
    apply index_Ok in Hgx as [Hgx _]. unfold sel_x in Hgx. by rewrite Hmr in Hgx.
  - destruct (lookup_total true doc lc Hinc) as [_ [gy Hgy]].
    unfold rank in Hcol. rewrite Hgy in Hcol. subst gy.
    apply index_Ok in Hgy as [Hgy _]. unfold sel_y in Hgy. by rewrite Hmc in Hgy.
Qed.

Lemma memo_first_wins_doc_matrix :
  ∃ lr lc r' c',
    find (λ l, bool_decide (fst <$> led_matrix l = Some 1)) (rgb_matrix_layout doc_matrix)
      = Some lr ∧
    find (λ l, bool_decide (snd <$> led_matrix l = Some 1)) (rgb_matrix_layout doc_matrix)
      = Some lc ∧
    led_matrix lr = Some (1, c') ∧ led_matrix lc = Some (r', 1) ∧
    @xs cpython_set true doc_matrix !! 1%nat = Some c' ∧
    @ys cpython_set true doc_matrix !! 0%nat = Some r'.
Proof.
  apply (@memo_first_wins cpython_set ucd_excerpt doc_matrix
    {| width := 3; height := 2; ledIndices := [0; 1; 2; 3]%nat;
       ledNames := [lit "Esc"; lit "F1"; lit "Q"; lit "W"];
       ledPositions := [(0, 0); (0, 0); (1, 0); (1, 1)]%nat |}
    [labelled 0 0 "Esc"; labelled 0 1 "F1"; labelled 1 1 "Q"; labelled 1 2 "W"]
    2%nat (mled 20 20 1 1) 1 1 (1, 0)%nat).
  - vm_compute. reflexivity.
  - reflexivity.
  - reflexivity.
  - reflexivity.
  - reflexivity.
Defined.

(** ** When the clean-up returns *)

Lemma sanitize_Ok_iff ucd l :
  (∃ s, sanitize ucd l = Ok s) ↔
  isascii l = true ∨ ∃ c n, l = [c] ∧ ucd c = Some n.
Proof.
  split.
  - intros [s Hs]. unfold sanitize in Hs. destruct (isascii l); [by left|].
    simpl in Hs. unfold unicodedata_name in Hs.
    destruct l as [|c [|]]; simpl in Hs; try done.
    destruct (ucd c) as [n|] eqn:Hc; [|done]. right. eauto.
  - intros [Ha | (c & n & -> & Hc)].
    + rewrite sanitize_ascii by done. by eexists.
    + unfold sanitize, unicodedata_name. rewrite Hc.
      destruct (negb (isascii [c])); simpl; by eexists.
Qed.

(** ** Every name is well escaped *)

(** What the clean-up returns is the escaped form of the label, or of the
    Unicode name of its one character. *)
Lemma sanitize_Ok_shape ucd l s :
  sanitize ucd l = Ok s →
  ∃ base, s = base ≫= escape_char ∧
    ((isascii l = true ∧ base = l) ∨
     (isascii l = false ∧ ∃ c, l = [c] ∧ ucd c = Some base)).
Proof.
  unfold sanitize. destruct (isascii l) eqn:Ha; simpl.
  - rewrite !replace_guarded, replace_twice. intros [= <-]. exists l. by split; [|left].
  - unfold unicodedata_name. destruct l as [|c [|]]; simpl; try done.
    destruct (ucd c) as [n|] eqn:Hc; simpl; [|done].
    rewrite !replace_guarded, replace_twice. intros [= <-]. exists n.
    split; [done|]. right. split; [done|]. by exists c.
Qed.

(** A string without backslash and double quote is well escaped as it is. *)
Definition plain (c : N) : Prop := c ≠ backslash ∧ c ≠ dquote.

Lemma plain_well_escaped s :
  Forall plain s → well_escaped s = true ∧ unescape s = s.
Proof.
  induction 1 as [|c s [Hb Hq] _ [IHw IHu]]; [done|].
  apply N.eqb_neq in Hb, Hq.
  rewrite well_escaped_plain, unescape_plain by done. by rewrite IHu.
Qed.

Definition digit (c : ascii) : Prop := (48 ≤ N_of_ascii c ≤ 57)%N.

Lemma pretty_N_char_digit x : digit (pretty_N_char x).
Proof. unfold pretty_N_char, digit. repeat case_match; simpl; lia. Qed.

Lemma pretty_N_go_digits x s :
  Forall digit (list_ascii_of_string s) →
  Forall digit (list_ascii_of_string (pretty_N_go x s)).
Proof.
  revert s. induction (N.lt_wf_0 x) as [x _ IH]; intros s Hs.
  assert (x = 0 ∨ 0 < x)%N as [->|Hx] by lia; [by rewrite pretty_N_go_0|].
  rewrite pretty_N_go_step by done. apply IH; [by apply N.div_lt|].
  simpl. constructor; [apply pretty_N_char_digit | done].
Qed.

Lemma pretty_nat_digits (n : nat) : Forall digit (list_ascii_of_string (pretty n)).
Proof.
  unfold pretty, pretty_nat, pretty, pretty_N. case_decide.
  - repeat constructor; unfold digit; simpl; lia.
  - apply pretty_N_go_digits. constructor.
Qed.

Lemma light_plain n : Forall plain (light n).
Proof.
  unfold light, str_of_nat. apply Forall_app. split.
  - repeat constructor; by vm_compute.
  - unfold lit. apply Forall_fmap. eapply Forall_impl; [apply pretty_nat_digits|].
    intros c Hc. unfold digit in Hc. unfold plain, backslash, dquote. simpl. lia.
Qed.

(** Every name the transform returns is well escaped, so that no backslash
    or double quote of a label stands bare in it: the name of a LED with an
    all-ASCII label reads back to that label, the name of a LED with a
    one-character label outside ASCII reads back to the Unicode name of the
    character, and the name of a LED without a label is "Light N", which has
    nothing to escape. *)
Theorem names_well_escaped `{PySet} (ucd : N → option str) (ms : bool) (doc : Doc)
    (t : Tables) (i : nat) (led : Led) :
  transform ucd ms doc = Ok t →
  rgb_matrix_layout doc !! i = Some led →
  ∃ name, ledNames t !! i = Some name ∧ well_escaped name = true ∧
    match candidate doc led with
    | Some l =>
        if isascii l then unescape name = l
        else ∃ c, l = [c] ∧ ucd c = Some (unescape name)
    | None => ∃ n, name = light n ∧ unescape name = name
    end.
Proof.
  intros Ht Hi.
  destruct (transform_named ucd ms doc t i led Ht Hi) as (name & Hname & Hnamed).
  exists name. split; [done|]. unfold named in Hnamed.
  destruct (candidate doc led) as [l|].
  - apply sanitize_Ok_shape in Hnamed as (base & -> & Hbase).
    split; [apply escape_well_escaped|]. rewrite unescape_escape.
    destruct Hbase as [[-> ->] | [-> (c & -> & Hc)]]; [done | by exists c].
  - destruct Hnamed as [n ->]. destruct (plain_well_escaped _ (light_plain n)).
    split; [done|]. by exists n.
Qed.

Lemma names_well_escaped_doc_matrix :
  ∃ name, [lit "Esc"; lit "F1"; lit "Q"; lit "W"] !! 2%nat = Some name ∧
          well_escaped name = true ∧ unescape name = lit "Q".
Proof.
  apply (@names_well_escaped cpython_set ucd_excerpt true doc_matrix
    {| width := 3; height := 2; ledIndices := [0; 1; 2; 3]%nat;
       ledNames := [lit "Esc"; lit "F1"; lit "Q"; lit "W"];
       ledPositions := [(0, 0); (0, 0); (1, 0); (1, 1)]%nat |}
    2%nat (mled 20 20 1 1)).
  - vm_compute. reflexivity.
  - reflexivity.
Defined.

(** * The rendered tables *)

(** Lines 383, 412 and 413 turn the three tables into the texts that go
    into the template: the indices and the positions through [str] and the
    names between double quotes, each joined with a comma and a space. *)

(** [sep.join(l)] *)
Fixpoint join (sep : str) (l : list str) : str :=
  match l with
  | [] => []
  | a :: l' =>
      match l' with
      | [] => a
      | _ :: _ => a ++ sep ++ join sep l'
      end
  end.

(** [str([ledx, ledy])] *)
Definition str_of_position (p : nat * nat) : str :=
  lit "[" ++ str_of_nat p.1 ++ lit ", " ++ str_of_nat p.2 ++ lit "]".

(** Line 383: [", ".join(str(x) for x in range(0, len(layout)))] *)
Definition vkeys_text (indices : list nat) : str :=
  join (lit ", ") (str_of_nat <$> indices).

(** Line 412: [", ".join(f'"{x}"' for x in vkeynames)] *)
Definition vkeynames_text (names : list str) : str :=
  join (lit ", ") ((λ x, [dquote] ++ x ++ [dquote]) <$> names).

(** Line 413: [", ".join(str(x) for x in vkeypositions)] *)
Definition vkeypositions_text (positions : list (nat * nat)) : str :=
  join (lit ", ") (str_of_position <$> positions).

(** ** Reading the names back *)

(** A reader of a comma-separated list of string literals: a literal opens
    at a double quote and closes at the next double quote that is not behind
    a backslash; a backslash takes the character after it along. The reader
    returns the texts between the quotes. *)
Inductive mode : Type := Between | Inside | Escaped.

Fixpoint read_names (m : mode) (cur : str) (acc : list str) (s : str)
  : option (list str) :=
  match s with
  | [] =>
      match m with
      | Between => Some (rev acc)
      | _ => None
      end
  | c :: s' =>
      match m with
      | Between =>
          if (c =? dquote)%N then read_names Inside [] acc s'
          else if (c =? 44)%N || (c =? 32)%N then read_names Between [] acc s'
          else None
      | Inside =>
          if (c =? dquote)%N then read_names Between [] (rev cur :: acc) s'
          else if (c =? backslash)%N then read_names Escaped (c :: cur) acc s'
          else read_names Inside (c :: cur) acc s'
      | Escaped => read_names Inside (c :: cur) acc s'
      end
  end.

Lemma read_names_inside name cur acc rest :
  well_escaped name = true →
  read_names Inside cur acc (name ++ dquote :: rest) =
    read_names Between [] (rev (rev name ++ cur) :: acc) rest.
Proof.
  remember (length name) as n eqn:Hn. revert name cur Hn.
  induction n as [n IH] using lt_wf_ind. intros name cur Hn Hw.
  destruct name as [|c name]; [done|]. simpl in Hw |- *.
  destruct (c =? backslash)%N eqn:Hb.
  - apply N.eqb_eq in Hb as ->. change (backslash =? dquote)%N with false.
    destruct name as [|d name]; [done|]. apply andb_true_iff in Hw as [_ Hw].
    simpl. rewrite (IH (length name)); [|simpl in Hn; lia|done..].
    by rewrite <-!app_assoc.
  - destruct (c =? dquote)%N eqn:Hq; [done|].
    rewrite (IH (length name)); [|simpl in Hn; lia|done..].
    by rewrite <-!app_assoc.
Qed.

Lemma read_names_quoted name acc rest :
  well_escaped name = true →
  read_names Between [] acc ([dquote] ++ name ++ [dquote] ++ rest) =
    read_names Between [] (name :: acc) rest.
Proof.
  intros Hw. simpl. rewrite read_names_inside by done.
  by rewrite app_nil_r, rev_involutive.
Qed.

Lemma join_cons sep a b l : join sep (a :: b :: l) = a ++ sep ++ join sep (b :: l).
Proof. done. Qed.

Lemma vkeynames_text_one a : vkeynames_text [a] = [dquote] ++ a ++ [dquote] ++ [].
Proof. unfold vkeynames_text. rewrite app_nil_r. done. Qed.

Lemma vkeynames_text_cons a b names :
  vkeynames_text (a :: b :: names) =
    [dquote] ++ a ++ [dquote] ++ [44; 32]%N ++ vkeynames_text (b :: names).
Proof.
  unfold vkeynames_text. rewrite !fmap_cons, join_cons, <-!app_assoc. done.
Qed.

Lemma read_names_separator acc s :
  read_names Between [] acc ([44; 32]%N ++ s) = read_names Between [] acc s.
Proof. done. Qed.

Lemma read_names_join names acc :
  Forall (λ name, well_escaped name = true) names →
  read_names Between [] acc (vkeynames_text names) = Some (rev acc ++ names).
Proof.
  intros Hall. revert acc.
  induction Hall as [|a names Ha Hall IH]; intros acc.
  - simpl. by rewrite app_nil_r.
  - destruct names as [|b names].
    + by rewrite vkeynames_text_one, read_names_quoted by done.
    + rewrite vkeynames_text_cons, read_names_quoted, read_names_separator, IH by done.
      simpl. by rewrite <-app_assoc.
Qed.

Section names_text.
Context `{PySet}.
Variable ucd : N → option str.
Variables (ms : bool) (doc : Doc).

Lemma transform_names_escaped t :
  transform ucd ms doc = Ok t → Forall (λ name, well_escaped name = true) (ledNames t).
Proof.
  unfold transform. destruct (run_loop ucd ms doc) as [st|] eqn:Hst; simpl; [|done].
  intros [= <-]. simpl. apply run_loop_named in Hst.
  induction Hst as [|led name leds names Hn _ IH]; constructor; [|done].
  unfold named in Hn. destruct (candidate doc led) as [l|].
  - apply sanitize_Ok_shape in Hn as (base & -> & _). apply escape_well_escaped.
  - destruct Hn as [n ->]. apply plain_well_escaped, light_plain.
Qed.
End names_text.

(** The text of the names reads back to the names: whatever the labels
    contain, each name ends at its own closing quote, so that the text has
    as many string literals as there are LEDs and none of them runs into
    the next. *)
Theorem names_text_reads_back `{PySet} (ucd : N → option str) (ms : bool)
    (doc : Doc) (t : Tables) :
  transform ucd ms doc = Ok t →
  read_names Between [] [] (vkeynames_text (ledNames t)) = Some (ledNames t).
Proof.
  intros Ht. apply (read_names_join _ []). by eapply transform_names_escaped.
Qed.

(** A key labelled with a backslash and one labelled with a double quote. *)
Definition doc_quote_labels : Doc :=
  {| rgb_matrix_layout := [mled 0 0 0 0; mled 10 0 0 1; led 20 0];
     layouts := Some [{| key_matrix := (0, 0); key_label := Some [backslash] |};
                      {| key_matrix := (0, 1); key_label := Some [dquote] |}] |}.

Lemma names_text_reads_back_doc_quote_labels :
  read_names Between [] []
    (vkeynames_text [[backslash; backslash]; [backslash; dquote]; lit "Light 1"]) =
    Some [[backslash; backslash]; [backslash; dquote]; lit "Light 1"].
Proof.
  apply (@names_text_reads_back cpython_set ucd_excerpt false doc_quote_labels
    {| width := 3; height := 1; ledIndices := [0; 1; 2]%nat;
       ledNames := [[backslash; backslash]; [backslash; dquote]; lit "Light 1"];
       ledPositions := [(0, 0); (1, 0); (2, 0)]%nat |}).
  vm_compute. reflexivity.
Defined.

(** ** Reading the numbers back *)

(** A reader of the decimal numbers of a text: every maximal run of digits
    is one number, everything else separates. [cur] is the number being
    read, if one is. *)
Fixpoint read_numbers (cur : option nat) (s : str) : list nat :=
  match s with
  | [] =>
      match cur with
      | Some n => [n]
      | None => []
      end
  | c :: s' =>
      if (48 <=? c)%N && (c <=? 57)%N then
        read_numbers (Some (10 * default 0%nat cur + N.to_nat (c - 48))%nat) s'
      else
        match cur with
        | Some n => n :: read_numbers None s'
        | None => read_numbers None s'
        end
  end.

Lemma pretty_N_char_code d : (d < 10)%N → N_of_ascii (pretty_N_char d) = (48 + d)%N.
Proof.
  intros Hd.
  assert (d = 0 ∨ d = 1 ∨ d = 2 ∨ d = 3 ∨ d = 4 ∨ d = 5 ∨ d = 6 ∨ d = 7 ∨ d = 8
          ∨ d = 9)%N as Hcases by lia.
  repeat (destruct Hcases as [-> | Hcases]; [done|]). by subst d.
Qed.

Lemma read_numbers_digit cur d s :
  (d < 10)%N →
  read_numbers cur (N_of_ascii (pretty_N_char d) :: s) =
    read_numbers (Some (10 * default 0%nat cur + N.to_nat d)%nat) s.
Proof.
  intros Hd. rewrite pretty_N_char_code by done. simpl.
  assert ((48 <=? 48 + d)%N && (48 + d <=? 57)%N = true) as ->.
  { apply andb_true_iff. split; apply N.leb_le; lia. }
  do 3 f_equal. lia.
Qed.

Lemma read_numbers_pretty_go x s rest :
  (0 < x)%N →
  read_numbers None (lit (pretty_N_go x s) ++ rest) =
    read_numbers (Some (N.to_nat x)) (lit s ++ rest).
Proof.
  revert s. induction (N.lt_wf_0 x) as [x _ IH]; intros s Hx.
  rewrite pretty_N_go_step by done.
  assert (x `mod` 10 < 10)%N as Hd by (apply N.mod_lt; lia).
  assert (N.to_nat x = 10 * N.to_nat (x `div` 10) + N.to_nat (x `mod` 10))%nat as Hx10.
  { rewrite (N.div_mod x 10) at 1 by lia. lia. }
  assert (x `div` 10 = 0 ∨ 0 < x `div` 10)%N as [H0|Hpos] by lia.
  - rewrite H0, pretty_N_go_0. unfold lit. simpl list_ascii_of_string.
    rewrite fmap_cons. simpl app. rewrite read_numbers_digit by done.
    simpl. do 2 f_equal. rewrite Hx10, H0. simpl. lia.
  - rewrite IH by (done || by apply N.div_lt).
    unfold lit. simpl list_ascii_of_string. rewrite fmap_cons. simpl app.
    rewrite read_numbers_digit by done. simpl. do 2 f_equal. lia.
Qed.

Lemma read_numbers_str_of_nat n rest :
  read_numbers None (str_of_nat n ++ rest) = read_numbers (Some n) rest.
Proof.
  unfold str_of_nat, pretty, pretty_nat, pretty, pretty_N. case_decide as Hn.
  - assert (n = 0)%nat as -> by lia. done.
  - rewrite read_numbers_pretty_go by lia. by rewrite Nat2N.id.
Qed.

Lemma read_numbers_item n rest :
  read_numbers None (str_of_nat n ++ lit ", " ++ rest) = n :: read_numbers None rest.
Proof. by rewrite read_numbers_str_of_nat. Qed.

(** The text of the indices reads back to the indices. *)
Lemma read_numbers_vkeys_text (l : list nat) :
  read_numbers None (vkeys_text l) = l.
Proof.
  unfold vkeys_text. induction l as [|a [|b l] IH].
  - done.
  - simpl. rewrite <-(app_nil_r (str_of_nat a)). by rewrite read_numbers_str_of_nat.
  - rewrite !fmap_cons, join_cons, read_numbers_item. f_equal. exact IH.
Qed.

Lemma str_of_position_cons p rest :
  read_numbers None (str_of_position p ++ rest) = p.1 :: p.2 :: read_numbers None rest.
Proof.
  unfold str_of_position. rewrite <-!app_assoc.
  change (lit "[" ++ ?s) with (91%N :: s). cbn [read_numbers].
  change ((48 <=? 91)%N && (91 <=? 57)%N) with false. cbv iota.
  rewrite read_numbers_item. f_equal. rewrite read_numbers_str_of_nat. done.
Qed.

(** The text of the positions reads back to the positions, gridX before
    gridY, LED after LED. *)
Lemma read_numbers_vkeypositions_text (ps : list (nat * nat)) :
  read_numbers None (vkeypositions_text ps) = ps ≫= (λ p, [p.1; p.2]).
Proof.
  unfold vkeypositions_text. induction ps as [|p [|q ps] IH].
  - done.
  - simpl join. rewrite <-(app_nil_r (str_of_position p)).
    by rewrite str_of_position_cons.
  - rewrite !fmap_cons, join_cons, str_of_position_cons, bind_cons. simpl.
    do 2 f_equal. exact IH.
Qed.

(** The text of the indices and the text of the positions read back to
    the two tables: the indices 0, 1, ..., one per LED, and the gridX and
    gridY of each LED in layout order. *)
Theorem number_texts_read_back `{PySet} (ucd : N → option str) (ms : bool)
    (doc : Doc) (t : Tables) :
  transform ucd ms doc = Ok t →
  read_numbers None (vkeys_text (ledIndices t)) =
    seq 0 (length (rgb_matrix_layout doc)) ∧
  read_numbers None (vkeypositions_text (ledPositions t)) =
    ledPositions t ≫= (λ p, [p.1; p.2]).
Proof.
  intros Ht. split.
  - rewrite read_numbers_vkeys_text. unfold transform in Ht.
    destruct (run_loop ucd ms doc); simpl in Ht; [|done]. by injection Ht as <-.
  - apply read_numbers_vkeypositions_text.
Qed.

Lemma number_texts_read_back_doc_matrix :
  read_numbers None (vkeys_text [0; 1; 2; 3]%nat) = [0; 1; 2; 3]%nat ∧
  read_numbers None (vkeypositions_text [(0, 0); (0, 0); (1, 0); (1, 1)]%nat) =
    [0; 0; 0; 0; 1; 0; 1; 1]%nat.
Proof.
  apply (@number_texts_read_back cpython_set ucd_excerpt true doc_matrix
    {| width := 3; height := 2; ledIndices := [0; 1; 2; 3]%nat;
       ledNames := [lit "Esc"; lit "F1"; lit "Q"; lit "W"];
       ledPositions := [(0, 0); (0, 0); (1, 0); (1, 1)]%nat |}).
  vm_compute. reflexivity.
Defined.

(** * The name of the output file *)

(** Lines 414-416: the characters of the keyboard's full name that are
    letters, digits or spaces, in lower case, with an underscore for every
    space, followed by [.js]. What [str.isalnum] says of a character and
    what [str.lower] does to a string come from the Unicode tables and are
    parameters. *)
Definition space : N := 32.
Definition underscore : N := 95.

(** [f"{manufacturer} {keyboard_name}"] *)
Definition k_name (manufacturer keyboard_name : str) : str :=
  manufacturer ++ [space] ++ keyboard_name.

Section file_name.
Variable isalnum : N → bool.
Variable lower : str → str.

Definition file_stem (name : str) : str :=
  replace space [underscore]
    (lower (filter (λ c, isalnum c || (c =? space)%N) (name : list N))).

Definition file_name (name : str) : str := file_stem name ++ lit ".js".
End file_name.

(** [str.isalnum] and [str.lower] on ASCII. *)
Definition ascii_alnum (c : N) : bool :=
  ((48 <=? c) && (c <=? 57) || (65 <=? c) && (c <=? 90) || (97 <=? c) && (c <=? 122))%N.

Definition ascii_lower (c : N) : N :=
  if ((65 <=? c) && (c <=? 90))%N then (c + 32)%N else c.

(** A lower-case letter, a digit or an underscore. *)
Definition file_char (c : N) : Prop :=
  (97 ≤ c ≤ 122 ∨ 48 ≤ c ≤ 57 ∨ c = underscore)%N.

Lemma replace_removes old new s : old ∉ new → old ∉ replace old new s.
Proof.
  intros Hnew. unfold replace. induction s as [|c s IH]; [by intros ?%elem_of_nil|].
  rewrite bind_cons. intros [Hin | Hin]%elem_of_app; [|done].
  destruct (c =? old)%N eqn:Hc; [done|].
  apply list_elem_of_singleton in Hin as ->. by rewrite N.eqb_refl in Hc.
Qed.

Lemma replace_fmap old new s :
  replace old [new] s = (λ c, if (c =? old)%N then new else c) <$> s.
Proof.
  unfold replace. induction s as [|c s IH]; [done|].
  rewrite bind_cons, fmap_cons, IH. by destruct (c =? old)%N.
Qed.

Lemma isascii_Forall s : isascii s = true ↔ Forall (λ c, (c < 128)%N) s.
Proof.
  unfold isascii. rewrite forallb_forall, Forall_forall.
  split; intros Hs c Hc.
  - apply N.ltb_lt, Hs. by apply list_elem_of_In.
  - apply N.ltb_lt, Hs. by apply list_elem_of_In.
Qed.

Section file_name_ascii.
Variable isalnum : N → bool.
Variable lower : str → str.
Hypothesis isalnum_ascii : ∀ c, (c < 128)%N → isalnum c = ascii_alnum c.
Hypothesis lower_ascii : ∀ s, isascii s = true → lower s = ascii_lower <$> s.

Lemma filter_ascii name :
  isascii name = true →
  filter (λ c, isalnum c || (c =? space)%N) (name : list N) =
    filter (λ c, ascii_alnum c || (c =? space)%N) (name : list N).
Proof.
  intros Ha%isascii_Forall. induction Ha as [|c s Hc _ IH]; [done|].
  rewrite !filter_cons, IH, (isalnum_ascii c Hc). done.
Qed.

Lemma file_stem_ascii name :
  isascii name = true →
  file_stem isalnum lower name =
    (λ c, if (c =? space)%N then underscore else ascii_lower c) <$>
      filter (λ c, ascii_alnum c || (c =? space)%N) (name : list N).
Proof.
  intros Ha. unfold file_stem. rewrite filter_ascii by done.
  rewrite lower_ascii.
  - rewrite replace_fmap, <-list_fmap_compose. apply list_fmap_ext.
    intros _ c _. simpl. unfold ascii_lower, space.
    destruct ((65 <=? c)%N && (c <=? 90)%N) eqn:Hup; [|done].
    apply andb_true_iff in Hup as [H1%N.leb_le H2%N.leb_le].
    assert ((c + 32 =? 32)%N = false) as -> by (apply N.eqb_neq; lia).
    assert ((c =? 32)%N = false) as -> by (apply N.eqb_neq; lia). done.
  - apply isascii_Forall. apply isascii_Forall in Ha.
    apply Forall_forall. intros c [_ Hc]%list_elem_of_filter.
    by eapply Forall_forall in Ha.
Qed.

Lemma file_stem_chars name :
  isascii name = true → Forall file_char (file_stem isalnum lower name).
Proof.
  intros Ha. rewrite file_stem_ascii by done. apply Forall_fmap, Forall_forall.
  intros c [Hc _]%list_elem_of_filter. simpl. unfold file_char.
  simpl in Hc. unfold space in *.
  destruct (c =? 32)%N eqn:Hs; [by right; right|].
  apply Is_true_true in Hc. rewrite orb_false_r in Hc.
  unfold ascii_alnum in Hc.
  rewrite !orb_true_iff, !andb_true_iff, !N.leb_le in Hc.
  unfold ascii_lower, underscore. destruct ((65 <=? c)%N && (c <=? 90)%N) eqn:Hup.
  - apply andb_true_iff in Hup as [H1%N.leb_le H2%N.leb_le]. lia.
  - apply andb_false_iff in Hup. rewrite !N.leb_gt in Hup. lia.
Qed.
End file_name_ascii.

(** For an all-ASCII keyboard name the file name is made of the letters,
    digits and spaces of the name, in their order: the letters in lower
    case, an underscore for each space, every other character dropped, and
    [.js] at the end. The stem holds nothing but lower-case letters, digits
    and underscores, so no path separator and no dot. *)
Theorem file_name_ascii (isalnum : N → bool) (lower : str → str) (name : str) :
  (∀ c, (c < 128)%N → isalnum c = ascii_alnum c) →
  (∀ s, isascii s = true → lower s = ascii_lower <$> s) →
  isascii name = true →
  file_name isalnum lower name =
    ((λ c, if (c =? space)%N then underscore else ascii_lower c) <$>
       filter (λ c, ascii_alnum c || (c =? space)%N) (name : list N)) ++ lit ".js" ∧
  Forall file_char (file_stem isalnum lower name) ∧
  (length (file_stem isalnum lower name) ≤ length name)%nat.
Proof.
  intros Hal Hlow Ha. unfold file_name.
  rewrite (file_stem_ascii isalnum lower Hal Hlow name Ha).
  split_and!; [done | |].
  - rewrite <-(file_stem_ascii isalnum lower Hal Hlow name Ha).
    by apply file_stem_chars.
  - rewrite length_fmap. apply length_filter.
Qed.

Lemma file_name_ascii_sample :
  file_name ascii_alnum (fmap ascii_lower) (k_name (lit "Keychron") (lit "Q1 (ANSI)")) =
    lit "keychron_q1_ansi.js".
Proof.
  destruct (file_name_ascii ascii_alnum (fmap ascii_lower)
              (k_name (lit "Keychron") (lit "Q1 (ANSI)"))) as (Hname & _ & _).
  - intros c _. reflexivity.
  - intros s _. reflexivity.
  - reflexivity.
  - rewrite Hname. vm_compute. reflexivity.
Defined.

(** * The axis lists *)

(** Whatever order the set iterates in, each axis list holds the selected
    coordinates of the LEDs, each value once: a value is on the X axis list
    exactly when some LED has it as its selected X value, and likewise for
    Y. *)
Theorem axis_lists_exact `{PySet} (ms : bool) (doc : Doc) :
  NoDup (xs ms doc) ∧ NoDup (ys ms doc) ∧
  (∀ v, v ∈ xs ms doc ↔ ∃ led, led ∈ rgb_matrix_layout doc ∧ v = sel_x ms led) ∧
  (∀ v, v ∈ ys ms doc ↔ ∃ led, led ∈ rgb_matrix_layout doc ∧ v = sel_y ms led) ∧
  (∀ i j v, xs ms doc !! i = Some v → xs ms doc !! j = Some v → i = j) ∧
  (∀ i j v, ys ms doc !! i = Some v → ys ms doc !! j = Some v → i = j).
Proof.
  split_and!; [apply xs_NoDup | apply ys_NoDup | apply xs_elem | apply ys_elem | |].
  - intros i j v. apply NoDup_lookup, xs_NoDup.
  - intros i j v. apply NoDup_lookup, ys_NoDup.
Qed.
